(** * tools/run_swo.py: the sampling-while-optimising driver

    A shallow embedding of the orchestration script [tools/run_swo.py] and
    the properties its specification states about it.

    Conventions of the model.
    - Python integers are [Z]; list indices are [nat].
    - Entries of float tensors are exact rationals ([Qc], Leibniz equality).
      Products by [+1]/[-1], [abs], comparisons with [0.0] and the small
      integer examples of the specification are exact on floats too; rounding
      of long sums, infinities and NaN are outside the model.
    - A Python exception is the left injection of [result].
    - The native extension [_C_nqs], the optimisers behind [train_amplitude]
      and [train_phase], and the random number generators are an interface
      the driver is parameterised by: [Backend] for its types, [Engine] for
      its operations. *)

From Stdlib Require Import ZArith List Sorted Lia QArith Qcanon Qcabs.
From stdpp Require Import base numbers list strings gmap.

Open Scope Z_scope.

(** ** Exceptions *)

Inductive exn : Type :=
  | AssertionError
  | IndexError
  | ValueError
  | RuntimeError
  | FileNotFoundError.

Definition result (A : Type) : Type := (exn + A)%type.

Definition raise {A} (e : exn) : result A := inl e.

#[global] Instance result_ret : MRet result := λ A x, inr x.
#[global] Instance result_bind : MBind result := λ A B f m,
  match m with
  | inl e => inl e
  | inr x => f x
  end.
#[global] Instance result_fmap : FMap result := λ A B f m,
  match m with
  | inl e => inl e
  | inr x => inr (f x)
  end.

(** ** Python lists and ranges *)

(** [len(range(start, stop, step))] for [step > 0], as CPython computes it. *)
Definition range_len (start stop step : Z) : nat :=
  if decide (start < stop) then Z.to_nat ((stop - start - 1) / step + 1)
  else 0%nat.

(** [list(range(start, stop, step))]; a zero step raises [ValueError].
    Negative steps do not occur in the script and are not modelled. *)
Definition py_range (start stop step : Z) : result (list Z) :=
  if decide (step = 0) then raise ValueError
  else mret ((λ i : nat, start + Z.of_nat i * step) <$>
             seq 0 (range_len start stop step)).

(** [l[-1]]: the last element, [IndexError] on the empty list. *)
Definition py_last {A} (l : list A) : result A :=
  match last l with
  | Some x => mret x
  | None => raise IndexError
  end.

(** ** [_make_checkpoints_for] (lines 98-104) *)

Definition _make_checkpoints_for (n : Z) : result (list Z) :=
  if decide (n <= 10) then py_range 0 n 1
  else
    important_iterations ← py_range 0 n (n / 10);
    lst ← py_last important_iterations;
    if decide (lst ≠ n - 1)
    then mret (important_iterations ++ [n - 1])
    else mret important_iterations.

(** ** Tensors

    A 1-D tensor, and a [[batch, 1]] column tensor (represented by its
    entries, so that [.view([-1])] is the identity), is a [list Qc]; a
    [[batch, k]] tensor is the list of its rows. *)

Abbreviation Tensor1 := (list Qc).
Abbreviation Tensor2 := (list (list Qc)).

Definition q (n : Z) (d : positive) : Qc := Q2Qc (n # d).

(** Elementwise [a op b] of two [[_, 1]] columns with torch's broadcasting:
    equal sizes, or one of the two of size 1. *)
Definition broadcast2 (op : Qc → Qc → Qc) (a b : Tensor1) : result Tensor1 :=
  if decide (length a = length b) then mret (zip_with op a b)
  else match a, b with
       | [u], _ => mret (op u <$> b)
       | _, [v] => mret ((λ u, op u v) <$> a)
       | _, _ => raise RuntimeError
       end.

(** In-place [a op= b]: [b] is broadcast to the shape of [a], which cannot
    change. *)
Definition inplace2 (op : Qc → Qc → Qc) (a b : Tensor1) : result Tensor1 :=
  if decide (length a = length b) then mret (zip_with op a b)
  else match b with
       | [v] => mret ((λ u, op u v) <$> a)
       | _ => raise RuntimeError
       end.

(** The sum of products behind [torch.dot]. *)
Definition inner (a b : Tensor1) : Qc :=
  foldr Qcplus 0%Qc (zip_with Qcmult a b).

(** [torch.dot(a, b)]: both 1-D with the same number of elements. *)
Definition torch_dot (a b : Tensor1) : result Qc :=
  if decide (length a = length b) then mret (inner a b)
  else raise RuntimeError.

(** [torch.abs(φ)]. *)
Definition torch_abs (φ : Tensor1) : Tensor1 := Qcabs <$> φ.

(** [torch.where(φ >= 0.0, torch.tensor([0]), torch.tensor([1]))]. *)
Definition torch_where_ge0 (φ : Tensor1) : list Z :=
  (λ v, if decide (0 ≤ v)%Qc then 0 else 1) <$> φ.

(** The index half of [torch.max(t, dim=1, keepdim=True)]. Along the reduced
    dimension the index of the first maximal entry is returned (PyTorch
    documents this choice among equal maxima): the running best is replaced
    by strictly larger entries only. *)
Fixpoint argmax_from (best : Qc) (ibest i : Z) (row : list Qc) : Z :=
  match row with
  | [] => ibest
  | v :: row' =>
      if decide (best < v)%Qc then argmax_from v i (i + 1) row'
      else argmax_from best ibest (i + 1) row'
  end.

Definition argmax (row : list Qc) : result Z :=
  match row with
  | [] => raise IndexError
  | v :: row' => mret (argmax_from v 0 1 row')
  end.

Definition torch_max_indices (t : Tensor2) : result (list Z) :=
  mapM argmax t.

(** [TensorDataset(a, b)] asserts equal sizes of the first dimension. *)
Definition TensorDataset {A B} (a : list A) (b : list B)
  : result (list A * list B) :=
  if decide (length a = length b) then mret (a, b)
  else raise AssertionError.

(** ** [CombiningState] (lines 73-95) *)

Abbreviation AmplitudeNet := (Tensor2 → Tensor1).
Abbreviation PhaseNet := (Tensor2 → Tensor2).

Record CombiningState : Type := {
  _amplitude : AmplitudeNet;
  _phase : PhaseNet;
}.

Definition forward (self : CombiningState) (x : Tensor2) : result Tensor1 :=
  let A := _amplitude self x in
  phi ← torch_max_indices (_phase self x);
  let phi := (λ k, 1 - 2 * k) <$> phi in
  broadcast2 Qcmult A (Qc_of_Z <$> phi).

(** ** [optimise_scale] (lines 107-114) *)

Definition optimise_scale (ψ : AmplitudeNet) (dataset : Tensor2 * Tensor1)
  : result Qc :=
  let '(x, φ) := dataset in
  let ψx := ψ x in
  A ← torch_dot φ φ;
  B ← torch_dot φ ψx;
  if decide (A ≠ 0%Qc) then mret (- B / A)%Qc
  else raise AssertionError.

(** ** The sampling engine's result container *)

Record Ensemble : Type := {
  ens_samples : Tensor2;
  ens_values : Tensor1;
  ens_counts : list Z;
}.

Definition to_tensors (r : Ensemble) : Tensor2 * Tensor1 * list Z :=
  (ens_samples r, ens_values r, ens_counts r).

(** [result.values(v)]: the setter. *)
Definition set_values (r : Ensemble) (v : Tensor1) : Ensemble :=
  {| ens_samples := ens_samples r; ens_values := v;
     ens_counts := ens_counts r |}.

(** ** The interface to the native extension and to the optimisers

    [_C.sample_some], [_C.sample_difference] and [Ensemble.merge] live in the
    C++ extension; [train_amplitude] and [train_phase] run torch optimisers on
    shuffled mini-batches. They are taken as given, each threading the random
    generator's state [Rng] and free to fail. The checkpoints the samplers
    load by file name are handed to them as the models found in the file
    store. *)

Class Backend : Type := {
  Hamiltonian : Type;
  Root : Type;
  Rng : Type;
  TrainConfig : Type;
}.

Section Driver.
Context {B : Backend}.

Record Polynomial : Type := {
  poly_hamiltonian : Hamiltonian;
  poly_roots : list Root;
  poly_scale : option Qc;
}.

Record ChainOptions : Type := {
  co_number_spins : Z;
  co_magnetisation : Z;
  co_batch_size : Z;
  co_steps : Z * Z * Z * Z;
}.

Record Engine : Type := {
  sample_some :
    Rng → CombiningState → Polynomial → ChainOptions → Z * Z →
    result Ensemble * Rng;
  sample_difference :
    Rng → CombiningState → CombiningState → Polynomial → ChainOptions →
    Z * Z → result Ensemble * Rng;
  merge : Ensemble → Ensemble → result Ensemble;
  fit_amplitude :
    Rng → AmplitudeNet → Tensor2 * Tensor1 → TrainConfig → bool →
    result AmplitudeNet * Rng;
  fit_phase :
    Rng → PhaseNet → Tensor2 * list Z → TrainConfig → bool →
    result PhaseNet * Rng;
}.

Record Config : Type := {
  number_spins : Z;
  magnetisation : Z;
  hamiltonian : Hamiltonian;
  roots : list Root;
  epochs : Z;
  output : string;
  steps : Z * Z * Z * Z;
  difference_sampling : bool;
  amplitude : TrainConfig;
  phase : TrainConfig;
}.

(** ** Effects: the file store, the generator and the trace of calls *)

Inductive Event : Type :=
  | EvLog (msg : string)
  | EvSave (filename : string) (st : CombiningState)
  | EvLoad (filename : string) (found : option CombiningState)
  | EvSampleSome (filename : string) (found : option CombiningState)
      (poly : Polynomial) (opts : ChainOptions)
  | EvSampleDifference (new_state old_state : string)
      (found_new found_old : option CombiningState)
      (poly : Polynomial) (opts : ChainOptions)
  | EvMerge (into other : Ensemble)
  | EvTrainAmplitude (dataset : Tensor2 * Tensor1) (gpu : bool)
  | EvTrainPhase (dataset : Tensor2 * list Z) (gpu : bool).

Record World : Type := {
  files : gmap string CombiningState;
  rng : Rng;
  trace : list Event;
}.

Definition M (A : Type) : Type := World → World * result A.

#[global] Instance M_ret : MRet M := λ A x w, (w, inr x).
#[global] Instance M_bind : MBind M := λ A B f m w,
  match m w with
  | (w', inl e) => (w', inl e)
  | (w', inr x) => f x w'
  end.

Definition lift {A} (r : result A) : M A := λ w, (w, r).

Definition emit (e : Event) (w : World) : World :=
  {| files := files w; rng := rng w; trace := trace w ++ [e] |}.

Definition with_rng (g : Rng) (w : World) : World :=
  {| files := files w; rng := g; trace := trace w |}.

(** A computation that only ever appends to the trace. *)
Definition extends {A} (m : M A) : Prop :=
  ∀ w, trace w `prefix_of` trace (m w).1.

Definition log (msg : string) : M unit := λ w, (emit (EvLog msg) w, inr ()).

(** [CombiningState(...).save(filename)]. *)
Definition save (st : CombiningState) (filename : string) : M unit := λ w,
  ({| files := <[filename := st]> (files w); rng := rng w;
      trace := trace w ++ [EvSave filename st] |}, inr ()).

(** [torch.jit.load(filename)]. *)
Definition load (filename : string) : M CombiningState := λ w,
  (emit (EvLoad filename (files w !! filename)) w,
   match files w !! filename with
   | Some st => inr st
   | None => raise FileNotFoundError
   end).

Context (E : Engine).

Definition c_sample_some (filename : string) (poly : Polynomial)
    (opts : ChainOptions) (shape : Z * Z) : M Ensemble := λ w,
  let w := emit (EvSampleSome filename (files w !! filename) poly opts) w in
  match files w !! filename with
  | None => (w, raise FileNotFoundError)
  | Some st =>
      let '(r, g) := sample_some E (rng w) st poly opts shape in
      (with_rng g w, r)
  end.

Definition c_sample_difference (new_state old_state : string)
    (poly : Polynomial) (opts : ChainOptions) (shape : Z * Z)
  : M Ensemble := λ w,
  let w := emit (EvSampleDifference new_state old_state
                   (files w !! new_state) (files w !! old_state)
                   poly opts) w in
  match files w !! new_state, files w !! old_state with
  | Some st_new, Some st_old =>
      let '(r, g) :=
        sample_difference E (rng w) st_new st_old poly opts shape in
      (with_rng g w, r)
  | _, _ => (w, raise FileNotFoundError)
  end.

(** [result.merge(other)]. *)
Definition c_merge (into other : Ensemble) : M Ensemble := λ w,
  (emit (EvMerge into other) w, merge E into other).

(** [train_amplitude] (lines 117-159) and [train_phase] (lines 162-221):
    the call is recorded with the data set it is given; the epochs of
    mini-batch descent, with the progress lines they log, are the engine's
    fit. *)
Definition train_amplitude (ψ : AmplitudeNet) (dataset : Tensor2 * Tensor1)
    (config : TrainConfig) (GPU : bool) : M AmplitudeNet := λ w,
  let w := emit (EvTrainAmplitude dataset GPU) w in
  let '(r, g) := fit_amplitude E (rng w) ψ dataset config GPU in
  (with_rng g w, r).

Definition train_phase (ψ : PhaseNet) (dataset : Tensor2 * list Z)
    (config : TrainConfig) (GPU : bool) : M PhaseNet := λ w,
  let w := emit (EvTrainPhase dataset GPU) w in
  let '(r, g) := fit_phase E (rng w) ψ dataset config GPU in
  (with_rng g w, r).

(** ** [generate_train_data] (lines 224-262)

    [explicit] is the constant [False]: only the sampling branch runs. *)
Definition generate_train_data (filename : string) (config : Config)
  : M (Tensor2 * Tensor1 * list Z * Ensemble) :=
  let poly := {| poly_hamiltonian := hamiltonian config;
                 poly_roots := roots config; poly_scale := None |} in
  let chain_options :=
    {| co_number_spins := number_spins config;
       co_magnetisation := magnetisation config;
       co_batch_size := 1024; co_steps := steps config |} in
  result ← c_sample_some filename poly chain_options (16, 1);
  let '(samples, φ, counts) := to_tensors result in
  log "Visited {} configurations during Monte Carlo sampling";;
  let target_amplitudes := torch_abs φ in
  let target_signs := torch_where_ge0 φ in
  mret (samples, target_amplitudes, target_signs, result).

(** ** [generate_more_data] (lines 265-282) *)
Definition generate_more_data (new_state old_state : string) (scale : Qc)
    (config : Config) : M Ensemble :=
  log "scale = {}";;
  let poly := {| poly_hamiltonian := hamiltonian config;
                 poly_roots := roots config; poly_scale := Some scale |} in
  let chain_options :=
    {| co_number_spins := number_spins config;
       co_magnetisation := magnetisation config;
       co_batch_size := 1024; co_steps := steps config |} in
  result ← c_sample_difference new_state old_state poly chain_options (16, 1);
  let '(samples, values, _) := to_tensors result in
  ψ_new ← load new_state;
  prediction ← lift (forward ψ_new samples);
  values ← lift (inplace2 Qcplus values prediction);
  let values := (λ v, v / scale)%Qc <$> values in
  mret (set_values result values).

(** ** [swo_step] (lines 320-355) *)

Definition tempfile_name : string := ".temp-swo-model.old.pt".
Definition tempfile_name_current : string := ".temp-swo-model.current.pt".

(** Lines 344-354: merge, new targets, second training pass. *)
Definition swo_retrain (ψ : AmplitudeNet * PhaseNet)
    (result extra_result : Ensemble) (config : Config)
  : M (AmplitudeNet * PhaseNet) :=
  let '(ψ_amplitude, ψ_phase) := ψ in
  result ← c_merge result extra_result;
  let '(samples, φ, _) := to_tensors result in
  let target_amplitudes := torch_abs φ in
  let target_phases := torch_where_ge0 φ in
  log "Training on {} spin configurations...";;
  ds ← lift (TensorDataset samples target_amplitudes);
  ψ_amplitude ← train_amplitude ψ_amplitude ds (amplitude config) true;
  ds ← lift (TensorDataset samples target_phases);
  ψ_phase ← train_phase ψ_phase ds (phase config) true;
  mret (ψ_amplitude, ψ_phase).

(** Lines 337-354: the difference-sampling branch. *)
Definition swo_difference (ψ : AmplitudeNet * PhaseNet)
    (samples : Tensor2) (target_amplitudes : Tensor1) (result : Ensemble)
    (config : Config) : M (AmplitudeNet * PhaseNet) :=
  let '(ψ_amplitude, ψ_phase) := ψ in
  log "Generating more data...";;
  s ← lift (optimise_scale ψ_amplitude (samples, target_amplitudes));
  let scale := Qcabs s in
  save {| _amplitude := ψ_amplitude; _phase := ψ_phase |}
       tempfile_name_current;;
  extra_result ← generate_more_data tempfile_name_current tempfile_name
                   scale config;
  swo_retrain (ψ_amplitude, ψ_phase) result extra_result config.

(** Lines 321-334: checkpoint, first sampling round, first training pass. *)
Definition swo_first (ψ : AmplitudeNet * PhaseNet) (config : Config)
  : M (AmplitudeNet * PhaseNet * Tensor2 * Tensor1 * Ensemble) :=
  let '(ψ_amplitude, ψ_phase) := ψ in
  save {| _amplitude := ψ_amplitude; _phase := ψ_phase |} tempfile_name;;
  log "Generating the training data set...";;
  '(samples, target_amplitudes, target_phases, result) ←
    generate_train_data tempfile_name config;
  log "Training on {} spin configurations...";;
  ds ← lift (TensorDataset samples target_amplitudes);
  ψ_amplitude ← train_amplitude ψ_amplitude ds (amplitude config) false;
  ds ← lift (TensorDataset samples target_phases);
  ψ_phase ← train_phase ψ_phase ds (phase config) false;
  mret (ψ_amplitude, ψ_phase, samples, target_amplitudes, result).

Definition swo_step (ψ : AmplitudeNet * PhaseNet) (config : Config)
  : M (AmplitudeNet * PhaseNet) :=
  '(ψ_amplitude, ψ_phase, samples, target_amplitudes, result) ←
    swo_first ψ config;
  if difference_sampling config
  then swo_difference (ψ_amplitude, ψ_phase) samples target_amplitudes
         result config
  else mret (ψ_amplitude, ψ_phase).

(** ** [main] (lines 545-563)

    The freshly constructed networks and [_OPTIONS] are the arguments. *)
Fixpoint main_loop (ψ : AmplitudeNet * PhaseNet) (_OPTIONS : Config)
    (iterations : list Z) : M (AmplitudeNet * PhaseNet) :=
  match iterations with
  | [] => mret ψ
  | i :: iterations' =>
      log "----------{}----------";;
      ψ ← swo_step ψ _OPTIONS;
      main_loop ψ _OPTIONS iterations'
  end.

Definition main (ψ_amplitude : AmplitudeNet) (ψ_phase : PhaseNet)
    (_OPTIONS : Config) : M unit :=
  iterations ← lift (py_range 0 (epochs _OPTIONS) 1);
  main_loop (ψ_amplitude, ψ_phase) _OPTIONS iterations;;
  mret ().

End Driver.

(** ** Supervised targets, in the specification's words

    The amplitude target is [|v|]; the phase target is class 0 where
    [v >= 0] and class 1 where [v < 0]. *)
Definition derived_targets (φ target_amplitudes : Tensor1)
    (target_phases : list Z) : Prop :=
  length target_amplitudes = length φ
  ∧ length target_phases = length φ
  ∧ ∀ (i : nat) (v : Qc), φ !! i = Some v →
      target_amplitudes !! i = Some (Qcabs v)
      ∧ ((0 ≤ v)%Qc → target_phases !! i = Some 0)
      ∧ ((v < 0)%Qc → target_phases !! i = Some 1).

(** ** A small engine to run the driver on

    The samplers return fixed ensembles, merging concatenates, and fitting
    returns a fixed amplitude network and leaves the phase network as it is;
    the generator's state counts the calls. *)

Definition toy_backend : Backend :=
  {| Hamiltonian := unit; Root := unit; Rng := nat; TrainConfig := unit |}.

Definition toy_engine (first extra : Ensemble) (fitted : AmplitudeNet)
  : @Engine toy_backend :=
  @Build_Engine toy_backend
    (λ g _ _ _ _, (inr first, S g))
    (λ g _ _ _ _ _, (inr extra, S g))
    (λ a b,
       inr {| ens_samples := ens_samples a ++ ens_samples b;
              ens_values := ens_values a ++ ens_values b;
              ens_counts := ens_counts a ++ ens_counts b |})
    (λ g _ _ _ _, (inr fitted, S g))
    (λ g ψ _ _ _, (inr ψ, S g)).

Definition toy_config (n : Z) (diff : bool) : @Config toy_backend :=
  @Build_Config toy_backend 2 0 () [(); ()] n "result.1x10/swo"
    (4, 50, 250, 1) diff () ().

Definition toy_world : @World toy_backend :=
  @Build_World toy_backend ∅ 0%nat [].

(** The store after both checkpoints of one [swo_step] were written. *)
Definition toy_checkpointed (ψ_amplitude : AmplitudeNet)
    (ψ_phase : PhaseNet) : @World toy_backend :=
  @Build_World toy_backend
    (<[tempfile_name_current :=
         {| _amplitude := ψ_amplitude; _phase := ψ_phase |}]>
       (<[tempfile_name :=
            {| _amplitude := ψ_amplitude; _phase := ψ_phase |}]> ∅))
    0%nat [].

Definition toy_samples : Tensor2 := [[1; -1]; [-1; 1]]%Qc.

(** A phase network preferring class 1 exactly on the configuration
    [[-1; 1]], and an amplitude network constantly [2]. *)
Definition toy_phase : PhaseNet :=
  fmap (λ row, if decide (row = [-1; 1]%Qc) then [q 1 10; q 9 10]
               else [q 9 10; q 1 10]).
Definition toy_amplitude : AmplitudeNet := fmap (λ _, 2%Qc).

Definition toy_first : Ensemble :=
  {| ens_samples := toy_samples; ens_values := [q 3 2; q (-1) 2];
     ens_counts := [5; 3] |}.
Definition toy_extra : Ensemble :=
  {| ens_samples := toy_samples; ens_values := [q 1 1; q (-3) 1];
     ens_counts := [1; 1] |}.
(** An ensemble whose sampled values all vanish. *)
Definition toy_null : Ensemble :=
  {| ens_samples := toy_samples; ens_values := [0; 0]%Qc;
     ens_counts := [1; 1] |}.

(** The networks of the specification's evaluator test (amplitude [2.0],
    logits [[0.1, 0.9]]) and a classifier that cannot decide. *)
Definition example_state : CombiningState :=
  {| _amplitude := λ _, [q 2 1]; _phase := λ _, [[q 1 10; q 9 10]] |}.
Definition tie_state : CombiningState :=
  {| _amplitude := λ _, [q 2 1]; _phase := λ _, [[q 1 2; q 1 2]] |}.

(** The data of the specification's scale test: [φ = [1, 2, 3]] and a
    network predicting [[2, 4, 6]]. *)
Definition example_φ : Tensor1 := [q 1 1; q 2 1; q 3 1].
Definition example_ψ : AmplitudeNet := λ _, [q 2 1; q 4 1; q 6 1].
Definition example_x : Tensor2 := [[1; -1]; [-1; 1]; [1; 1]]%Qc.

Definition is_save (filename : string) {B : Backend} (e : @Event B) : bool :=
  match e with
  | EvSave f _ => bool_decide (f = filename)
  | _ => false
  end.

(** ** More of the driver *)

Section Driver_more.
Context {B : Backend}.

(** A computation that appends only events satisfying [P]. *)
Definition emits (P : Event → Prop) {A} (m : M A) : Prop :=
  ∀ w, ∃ rest, trace (m w).1 = trace w ++ rest ∧ Forall P rest.

(** A computation that leaves the file [f] of the store as it is. *)
Definition untouched (f : string) {A} (m : M A) : Prop :=
  ∀ w, files (m w).1 !! f = files w !! f.

Definition count_events (p : Event → bool) (l : list Event) : nat :=
  length (List.filter p l).

(** The line [main] logs at the start of every outer iteration. *)
Definition is_separator (e : Event) : bool :=
  match e with
  | EvLog msg => bool_decide (msg = "----------{}----------")
  | _ => false
  end.

(** Neither a separator line nor a write of the old checkpoint. *)
Definition inside_step (e : Event) : Prop :=
  is_separator e = false ∧ is_save tempfile_name e = false.

(** What the first pass of [swo_step] may do: log, write the old
    checkpoint, sample, train off the GPU. *)
Definition first_pass_event (e : Event) : Prop :=
  match e with
  | EvLog _ => True
  | EvSave f _ => f = tempfile_name
  | EvSampleSome _ _ _ _ => True
  | EvTrainAmplitude _ gpu => gpu = false
  | EvTrainPhase _ gpu => gpu = false
  | _ => False
  end.

Definition no_training (e : Event) : Prop :=
  match e with
  | EvTrainAmplitude _ _ => False
  | EvTrainPhase _ _ => False
  | _ => True
  end.

Context (E : Engine).

(** ** [switch_to_other_net] (lines 358-374) *)

(** [a, b, c = t] for a tuple [t] of four: too many values to unpack. *)
Definition unpack_three {T1 T2 T3 T4} (t : T1 * T2 * T3 * T4)
  : result (T1 * T2 * T3) :=
  raise ValueError.

Definition switch_to_other_net (φ ψ : AmplitudeNet * PhaseNet)
    (config : Config) : M (AmplitudeNet * PhaseNet) :=
  let '(φ_amplitude, φ_phase) := φ in
  let '(ψ_amplitude, ψ_phase) := ψ in
  let tempfile_name := ".swo.model.temp" in
  save {| _amplitude := ψ_amplitude; _phase := ψ_phase |} tempfile_name;;
  log "Generating the training data set...";;
  data ← generate_train_data E tempfile_name config;
  '(samples, target_amplitudes, target_phases) ← lift (unpack_three data);
  log "Training on {} spin configurations...";;
  ds ← lift (TensorDataset samples target_amplitudes);
  φ_amplitude ← train_amplitude E φ_amplitude ds (amplitude config) false;
  mret (φ_amplitude, φ_phase).

End Driver_more.

(** ** [extend_using_symmetries] (lines 285-317)

    Samples are the rows of a tensor, amplitudes a 1-D tensor, symmetries
    lists of Python integers. *)

(** [x[i]]: a negative index counts from the end, an index outside
    [-len, len) raises [IndexError]. *)
Definition py_index (x : list Qc) (i : Z) : result Qc :=
  let n := Z.of_nat (length x) in
  let j := if decide (i < 0) then i + n else i in
  if decide (0 ≤ j < n) then
    match x !! Z.to_nat j with
    | Some v => mret v
    | None => raise IndexError
    end
  else raise IndexError.

(** [x[p]] for a list [p] of indices. *)
Definition index_row (x : list Qc) (p : list Z) : result (list Qc) :=
  mapM (py_index x) p.

(** [np.any(a != b)], the comparison broadcasting as torch does. *)
Definition any_differs (a b : list Qc) : result bool :=
  if decide (length a = length b)
  then mret (bool_decide (Exists (λ uv, uv.1 ≠ uv.2) (zip a b)))
  else match a, b with
       | [u], _ => mret (bool_decide (Exists (λ v, u ≠ v) b))
       | _, [v] => mret (bool_decide (Exists (λ u, u ≠ v) a))
       | _, _ => raise RuntimeError
       end.

(** The loop of [expand] over the symmetries, from [p] on. *)
Fixpoint expand_from (symmetries : list (list Z)) (x : list Qc) (y : Qc)
  : result (list (list Qc * Qc)) :=
  match symmetries with
  | [] => mret []
  | p :: symmetries' =>
      new_x ← index_row x p;
      differs ← any_differs new_x x;
      similar ← expand_from symmetries' x y;
      mret (if differs : bool then (new_x, y) :: similar else similar)
  end.

Definition expand (symmetries : list (list Z)) (x : list Qc) (y : Qc)
  : result (list (list Qc * Qc)) :=
  similar ← expand_from symmetries x y;
  mret ((x, y) :: similar).

(** Python's [<] on lists of floats: the first differing position decides,
    a proper prefix is smaller. *)
Fixpoint list_lt (a b : list Qc) : bool :=
  match a, b with
  | _, [] => false
  | [], _ :: _ => true
  | u :: a', v :: b' =>
      if decide (u < v)%Qc then true
      else if decide (v < u)%Qc then false
      else list_lt a' b'
  end.

(** [a] is not after [b]. *)
Definition not_after (a b : list Qc) : Prop := list_lt b a = false.

(** [sorted(l, key=lambda t: t[0])]. Python's sort is stable, and every
    stable sort returns the same list; here by insertion, an element going
    in front of the first one that is not smaller. *)
Fixpoint insert_by_key (t : list Qc * Qc) (l : list (list Qc * Qc))
  : list (list Qc * Qc) :=
  match l with
  | [] => [t]
  | t' :: l' =>
      if list_lt t'.1 t.1 then t' :: insert_by_key t l' else t :: l
  end.

Definition py_sorted (l : list (list Qc * Qc)) : list (list Qc * Qc) :=
  foldr insert_by_key [] l.

(** [itertools.groupby(l, key=lambda t: t[0])]: the runs of equal keys,
    each with the second components of its members. *)
Fixpoint groupby (l : list (list Qc * Qc)) : list (list Qc * list Qc) :=
  match l with
  | [] => []
  | (x, y) :: l' =>
      match groupby l' with
      | (x', ys) :: groups =>
          if decide (x = x') then (x, y :: ys) :: groups
          else (x, [y]) :: (x', ys) :: groups
      | [] => [(x, [y])]
      end
  end.

(** [torch.mean(torch.tensor(ys))]. *)
Definition mean (ys : list Qc) : Qc :=
  (foldr Qcplus 0 ys / Qc_of_Z (Z.of_nat (length ys)))%Qc.

(** [torch.tensor(xs)] accepts rows of one length only. *)
Definition rectangular (xs : Tensor2) : bool :=
  match xs with
  | [] => true
  | x :: xs' => forallb (λ x', (length x' =? length x)%nat) xs'
  end.

Definition extend_using_symmetries (samples : Tensor2)
    (amplitudes : Tensor1) (symmetries : list (list Z))
  : result (Tensor2 * Tensor1) :=
  similar ← mapM (λ t, expand symmetries t.1 t.2) (zip samples amplitudes);
  let groups := groupby (py_sorted (concat similar)) in
  let xs := fst <$> groups in
  let ys := (λ group, mean group.2) <$> groups in
  if rectangular xs then mret (xs, ys) else raise ValueError.

(** ** [_KAGOME_18_SYMMETRIES] (lines 434-483) *)

Definition _KAGOME_18_SYMMETRIES : list (list Z) :=
  [ [0; 1; 2; 3; 4; 5; 6; 7; 8; 9; 10; 11; 12; 13; 14; 15; 16; 17];
    [0; 1; 2; 3; 4; 5; 10; 9; 11; 7; 6; 8; 13; 12; 14; 16; 15; 17];
    [0; 4; 14; 3; 1; 17; 12; 16; 8; 15; 13; 11; 6; 10; 2; 9; 7; 5];
    [0; 4; 14; 3; 1; 17; 13; 15; 11; 16; 12; 8; 10; 6; 2; 7; 9; 5];
    [1; 0; 2; 4; 3; 5; 6; 7; 8; 9; 10; 11; 16; 15; 17; 13; 12; 14];
    [1; 0; 2; 4; 3; 5; 10; 9; 11; 7; 6; 8; 15; 16; 17; 12; 13; 14];
    [1; 3; 17; 4; 0; 14; 15; 13; 11; 12; 16; 8; 10; 6; 2; 7; 9; 5];
    [1; 3; 17; 4; 0; 14; 16; 12; 8; 13; 15; 11; 6; 10; 2; 9; 7; 5];
    [3; 1; 17; 0; 4; 14; 15; 13; 11; 12; 16; 8; 9; 7; 5; 6; 10; 2];
    [3; 1; 17; 0; 4; 14; 16; 12; 8; 13; 15; 11; 7; 9; 5; 10; 6; 2];
    [3; 4; 5; 0; 1; 2; 7; 6; 8; 10; 9; 11; 16; 15; 17; 13; 12; 14];
    [3; 4; 5; 0; 1; 2; 9; 10; 11; 6; 7; 8; 15; 16; 17; 12; 13; 14];
    [4; 0; 14; 1; 3; 17; 12; 16; 8; 15; 13; 11; 7; 9; 5; 10; 6; 2];
    [4; 0; 14; 1; 3; 17; 13; 15; 11; 16; 12; 8; 9; 7; 5; 6; 10; 2];
    [4; 3; 5; 1; 0; 2; 7; 6; 8; 10; 9; 11; 12; 13; 14; 15; 16; 17];
    [4; 3; 5; 1; 0; 2; 9; 10; 11; 6; 7; 8; 13; 12; 14; 16; 15; 17];
    [6; 7; 8; 9; 10; 11; 12; 13; 14; 15; 16; 17; 0; 1; 2; 3; 4; 5];
    [6; 7; 8; 9; 10; 11; 16; 15; 17; 13; 12; 14; 1; 0; 2; 4; 3; 5];
    [6; 10; 2; 9; 7; 5; 0; 4; 14; 3; 1; 17; 12; 16; 8; 15; 13; 11];
    [6; 10; 2; 9; 7; 5; 1; 3; 17; 4; 0; 14; 16; 12; 8; 13; 15; 11];
    [7; 6; 8; 10; 9; 11; 12; 13; 14; 15; 16; 17; 4; 3; 5; 1; 0; 2];
    [7; 6; 8; 10; 9; 11; 16; 15; 17; 13; 12; 14; 3; 4; 5; 0; 1; 2];
    [7; 9; 5; 10; 6; 2; 3; 1; 17; 0; 4; 14; 16; 12; 8; 13; 15; 11];
    [7; 9; 5; 10; 6; 2; 4; 0; 14; 1; 3; 17; 12; 16; 8; 15; 13; 11];
    [9; 7; 5; 6; 10; 2; 3; 1; 17; 0; 4; 14; 15; 13; 11; 12; 16; 8];
    [9; 7; 5; 6; 10; 2; 4; 0; 14; 1; 3; 17; 13; 15; 11; 16; 12; 8];
    [9; 10; 11; 6; 7; 8; 13; 12; 14; 16; 15; 17; 4; 3; 5; 1; 0; 2];
    [9; 10; 11; 6; 7; 8; 15; 16; 17; 12; 13; 14; 3; 4; 5; 0; 1; 2];
    [10; 6; 2; 7; 9; 5; 0; 4; 14; 3; 1; 17; 13; 15; 11; 16; 12; 8];
    [10; 6; 2; 7; 9; 5; 1; 3; 17; 4; 0; 14; 15; 13; 11; 12; 16; 8];
    [10; 9; 11; 7; 6; 8; 13; 12; 14; 16; 15; 17; 0; 1; 2; 3; 4; 5];
    [10; 9; 11; 7; 6; 8; 15; 16; 17; 12; 13; 14; 1; 0; 2; 4; 3; 5];
    [12; 13; 14; 15; 16; 17; 0; 1; 2; 3; 4; 5; 6; 7; 8; 9; 10; 11];
    [12; 13; 14; 15; 16; 17; 4; 3; 5; 1; 0; 2; 7; 6; 8; 10; 9; 11];
    [12; 16; 8; 15; 13; 11; 6; 10; 2; 9; 7; 5; 0; 4; 14; 3; 1; 17];
    [12; 16; 8; 15; 13; 11; 7; 9; 5; 10; 6; 2; 4; 0; 14; 1; 3; 17];
    [13; 12; 14; 16; 15; 17; 0; 1; 2; 3; 4; 5; 10; 9; 11; 7; 6; 8];
    [13; 12; 14; 16; 15; 17; 4; 3; 5; 1; 0; 2; 9; 10; 11; 6; 7; 8];
    [13; 15; 11; 16; 12; 8; 9; 7; 5; 6; 10; 2; 4; 0; 14; 1; 3; 17];
    [13; 15; 11; 16; 12; 8; 10; 6; 2; 7; 9; 5; 0; 4; 14; 3; 1; 17];
    [15; 13; 11; 12; 16; 8; 9; 7; 5; 6; 10; 2; 3; 1; 17; 0; 4; 14];
    [15; 13; 11; 12; 16; 8; 10; 6; 2; 7; 9; 5; 1; 3; 17; 4; 0; 14];
    [15; 16; 17; 12; 13; 14; 1; 0; 2; 4; 3; 5; 10; 9; 11; 7; 6; 8];
    [15; 16; 17; 12; 13; 14; 3; 4; 5; 0; 1; 2; 9; 10; 11; 6; 7; 8];
    [16; 12; 8; 13; 15; 11; 6; 10; 2; 9; 7; 5; 1; 3; 17; 4; 0; 14];
    [16; 12; 8; 13; 15; 11; 7; 9; 5; 10; 6; 2; 3; 1; 17; 0; 4; 14];
    [16; 15; 17; 13; 12; 14; 1; 0; 2; 4; 3; 5; 6; 7; 8; 9; 10; 11];
    [16; 15; 17; 13; 12; 14; 3; 4; 5; 0; 1; 2; 7; 6; 8; 10; 9; 11] ].

(** Composition of index lists: [(x[p])[r] = x[compose p r]]. *)
Definition compose_indices (p r : list Z) : list Z :=
  (λ i, default 0 (p !! Z.to_nat i)) <$> r.

Definition is_permutation (n : nat) (p : list Z) : bool :=
  bool_decide (length p = n)
  && forallb (λ k, bool_decide (Z.of_nat k ∈ p)) (seq 0 n).

(** Three samples of three spins and the two symmetries of exchanging the
    first two spins or not. *)
Definition sym_samples : Tensor2 :=
  [[q 1 1; q (-1) 1; q 1 1]; [q (-1) 1; q 1 1; q 1 1];
   [q 1 1; q 1 1; q (-1) 1]].
Definition sym_amplitudes : Tensor1 := [q 1 1; q 3 1; q 5 1].
Definition sym_swaps : list (list Z) := [[0; 1; 2]; [1; 0; 2]].

(** ** What a scale is judged by

    The squared norm [⟨ψ + c φ, ψ + c φ⟩] of the prediction shifted by [c]
    times the target. *)
Definition shifted_norm (ψx φ : Tensor1) (c : Qc) : Qc :=
  inner (zip_with (λ p f, p + c * f)%Qc ψx φ)
        (zip_with (λ p f, p + c * f)%Qc ψx φ).

(** * Properties *)

(** ** Ranges and [_make_checkpoints_for] *)

Example checkpoints_7 :
  _make_checkpoints_for 7 = inr [0; 1; 2; 3; 4; 5; 6].
Proof. reflexivity. Qed.

Example checkpoints_25 :
  _make_checkpoints_for 25 =
  inr [0; 2; 4; 6; 8; 10; 12; 14; 16; 18; 20; 22; 24].
Proof. reflexivity. Qed.

Example checkpoints_500 :
  last <$> _make_checkpoints_for 500 = inr (Some 499).
Proof. reflexivity. Qed.

Section Ranges.
Variables start step : Z.
Hypothesis step_pos : 0 < step.

Local Abbreviation item := (λ i : nat, start + Z.of_nat i * step).

Lemma arith_seq_sorted (k len : nat) :
  StronglySorted Z.lt (item <$> seq k len).
Proof.
  revert k. induction len as [|len IH]; intros k; simpl.
  - constructor.
  - constructor; [apply IH|].
    apply Forall_fmap, Forall_forall. intros j Hj.
    apply list_elem_of_In, in_seq in Hj. simpl. nia.
Qed.

Lemma arith_seq_last (k len : nat) :
  last (item <$> seq k (S len)) = Some (item (k + len)%nat).
Proof. rewrite seq_S, fmap_app. apply last_snoc. Qed.

Lemma arith_seq_bounds (len : nat) :
  Forall (λ z, start ≤ z ≤ item (len - 1)%nat) (item <$> seq 0 len).
Proof.
  apply Forall_fmap, Forall_forall. intros j Hj.
  apply list_elem_of_In, in_seq in Hj. simpl. nia.
Qed.

End Ranges.

Lemma sorted_snoc (l : list Z) (x : Z) :
  StronglySorted Z.lt l → Forall (λ y, y < x) l →
  StronglySorted Z.lt (l ++ [x]).
Proof.
  induction 1 as [|y l Hl IH Hy]; intros Hx; simpl.
  - repeat constructor.
  - apply Forall_cons in Hx as [Hyx Hx]. constructor; [by apply IH|].
    apply Forall_app. split; [done|]. by repeat constructor.
Qed.

Lemma py_range_unit_step (n : Z) :
  0 ≤ n → py_range 0 n 1 = inr (Z.of_nat <$> seq 0 (Z.to_nat n)).
Proof.
  intros Hn. unfold py_range, range_len.
  destruct (decide (1 = 0)) as [|_]; [lia|]. unfold mret, result_ret. f_equal.
  destruct (decide (0 < n)) as [Hpos|Hneg].
  - rewrite Z.div_1_r. replace (n - 0 - 1 + 1) with n by lia.
    apply list_fmap_ext. intros; lia.
  - replace n with 0 by lia. reflexivity.
Qed.

(** C10. For every [n >= 1], [_make_checkpoints_for n] returns a strictly
    increasing list of indices of [0 .. n-1] that ends with [n-1]; for
    [n <= 10] it is exactly [0, 1, ..., n-1]. *)
Theorem make_checkpoints_for_spec (n : Z) :
  1 ≤ n →
  ∃ l, _make_checkpoints_for n = inr l
       ∧ StronglySorted Z.lt l
       ∧ Forall (λ i, 0 ≤ i ≤ n - 1) l
       ∧ last l = Some (n - 1)
       ∧ (n ≤ 10 → l = Z.of_nat <$> seq 0 (Z.to_nat n)).
Proof.
  intros Hn. unfold _make_checkpoints_for.
  destruct (decide (n ≤ 10)) as [Hle|Hgt].
  - exists (Z.of_nat <$> seq 0 (Z.to_nat n)).
    split; [apply py_range_unit_step; lia|].
    assert (Hitem : (λ i : nat, 0 + Z.of_nat i * 1) <$> seq 0 (Z.to_nat n)
                    = Z.of_nat <$> seq 0 (Z.to_nat n)).
    { apply list_fmap_ext. intros; lia. }
    rewrite <- Hitem. split_and!; [| | |done].
    + apply arith_seq_sorted; lia.
    + eapply Forall_impl; [apply arith_seq_bounds; lia|].
      intros z ?; simpl in *. lia.
    + destruct (Z.to_nat n) as [|m] eqn:Hm; [lia|].
      rewrite arith_seq_last. f_equal. lia.
  - set (s := n / 10).
    assert (Hs : 1 ≤ s) by (apply Z.div_le_lower_bound; lia).
    unfold py_range, range_len.
    destruct (decide (s = 0)) as [|_]; [lia|].
    destruct (decide (0 < n)) as [_|]; [|lia].
    set (m := (n - 0 - 1) / s).
    assert (Hm : 0 ≤ m) by (apply Z.div_pos; lia).
    assert (Hms : m * s ≤ n - 1).
    { unfold m. rewrite Z.mul_comm. replace (n - 0 - 1) with (n - 1) by lia.
      apply Z.mul_div_le; lia. }
    replace (Z.to_nat (m + 1)) with (S (Z.to_nat m)) by lia.
    unfold mbind, result_bind, mret, result_ret, py_last.
    rewrite (arith_seq_last 0 s). unfold mret, result_ret. cbv beta iota.
    assert (Hsorted : StronglySorted Z.lt
              ((λ i : nat, 0 + Z.of_nat i * s) <$> seq 0 (S (Z.to_nat m))))
      by (apply arith_seq_sorted; lia).
    assert (Hbounds : Forall (λ z, 0 ≤ z ≤ m * s)
              ((λ i : nat, 0 + Z.of_nat i * s) <$> seq 0 (S (Z.to_nat m)))).
    { eapply Forall_impl; [apply arith_seq_bounds; lia|].
      intros z ?; simpl in *. nia. }
    destruct (decide (0 + Z.of_nat (0 + Z.to_nat m) * s ≠ n - 1)) as [Hne|Heq].
    + eexists. split; [reflexivity|]. split_and!; [| | |lia].
      * apply sorted_snoc; [done|].
        eapply Forall_impl; [exact Hbounds|]. intros z ?; simpl in *. lia.
      * apply Forall_app. split.
        -- eapply Forall_impl; [exact Hbounds|]. intros z ?; simpl in *. lia.
        -- repeat constructor; lia.
      * by rewrite last_snoc.
    + eexists. split; [reflexivity|]. split_and!; [done| | |lia].
      * eapply Forall_impl; [exact Hbounds|]. intros z ?; simpl in *. lia.
      * rewrite arith_seq_last. f_equal. apply dec_stable in Heq. done.
Qed.

Lemma make_checkpoints_for_spec_witness :
  1 ≤ 25 ∧
  ∃ l, _make_checkpoints_for 25 = inr l
       ∧ StronglySorted Z.lt l
       ∧ Forall (λ i, 0 ≤ i ≤ 25 - 1) l
       ∧ last l = Some (25 - 1)
       ∧ (25 ≤ 10 → l = Z.of_nat <$> seq 0 (Z.to_nat 25)).
Proof. split; [lia|]. apply (make_checkpoints_for_spec 25). lia. Defined.

(** ** Rationals in canonical form *)

Lemma Qc_of_Z_1 : Qc_of_Z 1 = 1%Qc.
Proof. apply Qc_is_canon. reflexivity. Qed.

Lemma Qc_of_Z_m1 : Qc_of_Z (-1) = (- 1)%Qc.
Proof. apply Qc_is_canon. reflexivity. Qed.

(** Closes equations between evaluated tensors: the entries are compared
    as fractions, whatever the canonicity proofs they carry. *)
Ltac qc_entries :=
  repeat first
    [ reflexivity
    | apply Qc_is_canon; reflexivity
    | apply (f_equal (@inr exn _))
    | apply (f_equal (@Some _))
    | apply (f_equal2 (@cons Qc))
    | apply (f_equal2 (@cons (list Qc))) ].

Lemma fmap_zip_with_compose {A B C D} (g : C → D) (f : A → B → C)
    (l : list A) (k : list B) :
  g <$> zip_with f l k = zip_with (λ a b, g (f a b)) l k.
Proof.
  revert k. induction l as [|a l IH]; intros [|b k]; cbn; [done..|].
  by rewrite <- IH.
Qed.

(** ** [torch.max] along the class dimension *)

Lemma argmax_from_spec (row : list Qc) (best : Qc) (ibest i : Z) :
  (argmax_from best ibest i row = ibest ∧ Forall (λ v, v ≤ best)%Qc row)
  ∨ ∃ (j : nat) (m : Qc),
      argmax_from best ibest i row = i + Z.of_nat j
      ∧ row !! j = Some m
      ∧ (best < m)%Qc
      ∧ Forall (λ v, v ≤ m)%Qc row
      ∧ ∀ (j' : nat) (v : Qc),
          (j' < j)%nat → row !! j' = Some v → (v < m)%Qc.
Proof.
  revert best ibest i.
  induction row as [|v row IH]; intros best ibest i; cbn [argmax_from].
  { left. by split. }
  destruct (decide (best < v)%Qc) as [Hlt|Hge].
  - right.
    destruct (IH v i (i + 1)) as [[Hk Hall]|(j & m & Hk & Hj & Hm & Hall & Hfirst)].
    + exists 0%nat, v. rewrite Hk. split_and!; [lia|done|done| |].
      * constructor; [apply Qcle_refl|done].
      * intros j' ? ?. lia.
    + exists (S j), m. rewrite Hk. split_and!; [lia|done| | |].
      * by eapply Qclt_trans.
      * constructor; [by apply Qclt_le_weak|done].
      * intros [|j'] v' Hj' Hv'; [by simplify_eq/=|].
        eapply Hfirst; [|exact Hv']. lia.
  - apply Qcnot_lt_le in Hge.
    destruct (IH best ibest (i + 1))
      as [[Hk Hall]|(j & m & Hk & Hj & Hm & Hall & Hfirst)].
    + left. split; [done|]. by constructor.
    + right. exists (S j), m. rewrite Hk. split_and!; [lia|done|done| |].
      * constructor; [|done]. apply Qclt_le_weak. by eapply Qcle_lt_trans.
      * intros [|j'] v' Hj' Hv'.
        -- simplify_eq/=. by eapply Qcle_lt_trans.
        -- eapply Hfirst; [|exact Hv']. lia.
Qed.

(** [argmax] returns the position of a maximal entry, and of the first one
    among equals: every entry before it is strictly smaller. *)
Lemma argmax_first_maximum (row : list Qc) (k : Z) :
  argmax row = inr k →
  ∃ m, 0 ≤ k
       ∧ row !! Z.to_nat k = Some m
       ∧ Forall (λ v, v ≤ m)%Qc row
       ∧ ∀ (j : nat) (v : Qc),
           (j < Z.to_nat k)%nat → row !! j = Some v → (v < m)%Qc.
Proof.
  destruct row as [|v row]; [done|]. cbn [argmax]. intros [= <-].
  destruct (argmax_from_spec row v 0 1)
    as [[-> Hall]|(j & m & -> & Hj & Hm & Hall & Hfirst)].
  - exists v. split_and!; [done|done| |].
    + constructor; [apply Qcle_refl|done].
    + intros j ? ?. cbn. lia.
  - exists m. replace (Z.to_nat (1 + Z.of_nat j)) with (S j) by lia.
    split_and!; [lia|done| |].
    + constructor; [by apply Qclt_le_weak|done].
    + intros [|j'] v' Hj' Hv'; [by simplify_eq/=|].
      eapply Hfirst; [|exact Hv']. lia.
Qed.

Lemma argmax_two (lo hi : Qc) :
  argmax [lo; hi] = inr (if decide (lo < hi)%Qc then 1 else 0).
Proof. simpl. by destruct (decide (lo < hi)%Qc). Qed.

Lemma argmax_tie (c : Qc) : argmax [c; c] = inr 0.
Proof.
  rewrite argmax_two. destruct (decide (c < c)%Qc) as [Hlt|]; [|done].
  by apply Qclt_not_eq in Hlt.
Qed.

Lemma two_classes (row : list Qc) :
  length row = 2%nat → ∃ lo hi, row = [lo; hi].
Proof. destruct row as [|lo [|hi [|]]]; simpl; intros; try lia; eauto. Qed.

Lemma torch_max_indices_two (t : Tensor2) :
  Forall (λ row, length row = 2%nat) t →
  ∃ classes,
    torch_max_indices t = inr classes
    ∧ Forall2 (λ row k, argmax row = inr k) t classes.
Proof.
  induction 1 as [|row t Hrow _ (classes & Hcl & Hall)].
  - by exists [].
  - apply two_classes in Hrow as (lo & hi & ->).
    exists ((if decide (lo < hi)%Qc then 1 else 0) :: classes). split.
    + unfold torch_max_indices in *. cbn [mapM]. rewrite argmax_two.
      cbn. by rewrite Hcl.
    + constructor; [apply argmax_two|done].
Qed.

(** ** [CombiningState.forward] *)

(** Entry by entry, [forward] multiplies the amplitude by [1 - 2 * k],
    [k] the argmax of the configuration's logits. *)
Lemma forward_entries (self : CombiningState) (x : Tensor2) :
  length (_amplitude self x) = length x →
  length (_phase self x) = length x →
  Forall (λ row, length row = 2%nat) (_phase self x) →
  ∃ out,
    forward self x = inr out
    ∧ length out = length x
    ∧ ∀ (i : nat) (a : Qc) (row : list Qc) (k : Z),
        _amplitude self x !! i = Some a →
        _phase self x !! i = Some row →
        argmax row = inr k →
        out !! i = Some (a * Qc_of_Z (1 - 2 * k))%Qc.
Proof.
  intros HA HP Htwo.
  destruct (torch_max_indices_two _ Htwo) as (classes & Hcl & Hall).
  assert (Hlen : length classes = length x)
    by (by rewrite <- (Forall2_length _ _ _ Hall)).
  unfold forward. rewrite Hcl. cbn.
  unfold broadcast2. rewrite !length_fmap, HA, Hlen.
  destruct (decide (length x = length x)) as [_|]; [|done].
  eexists. split; [reflexivity|]. split.
  { rewrite length_zip_with, !length_fmap. lia. }
  intros i a row k Ha Hrow Harg.
  destruct (Forall2_lookup_l _ _ _ _ _ Hall Hrow) as (k' & Hk & Harg').
  rewrite lookup_zip_with, Ha, !list_lookup_fmap, Hk. cbn.
  rewrite Harg in Harg'. by injection Harg' as ->.
Qed.

(** C1. On a batch [x] for which the amplitude network gives one value and
    the phase classifier one pair of logits per configuration,
    [CombiningState.forward] returns the amplitude times a sign: [+1] where
    the argmax of the logits is class 0, [-1] where it is class 1. *)
Theorem forward_spec (self : CombiningState) (x : Tensor2) :
  length (_amplitude self x) = length x →
  length (_phase self x) = length x →
  Forall (λ row, length row = 2%nat) (_phase self x) →
  ∃ out,
    forward self x = inr out
    ∧ length out = length x
    ∧ ∀ (i : nat) (a lo hi : Qc),
        _amplitude self x !! i = Some a →
        _phase self x !! i = Some [lo; hi] →
        (argmax [lo; hi] = inr 0 ∧ ¬ (lo < hi)%Qc
         ∧ out !! i = Some (a * 1)%Qc)
        ∨ (argmax [lo; hi] = inr 1 ∧ (lo < hi)%Qc
           ∧ out !! i = Some (a * - 1)%Qc).
Proof.
  intros HA HP Htwo.
  destruct (forward_entries self x HA HP Htwo) as (out & Hout & Hlen & Hent).
  exists out. split; [done|]. split; [done|].
  intros i a lo hi Ha Hrow.
  pose proof (argmax_two lo hi) as Harg.
  destruct (decide (lo < hi)%Qc) as [Hlt|Hge].
  - right. split_and!; [done..|].
    rewrite (Hent i a _ 1 Ha Hrow Harg).
    change (1 - 2 * 1) with (-1). by rewrite Qc_of_Z_m1.
  - left. split_and!; [done..|].
    rewrite (Hent i a _ 0 Ha Hrow Harg).
    change (1 - 2 * 0) with 1. by rewrite Qc_of_Z_1.
Qed.

(** The evaluator composition test of the specification: amplitude [2.0],
    logits [[0.1, 0.9]], result [-2.0]. *)
Example forward_example (x0 : list Qc) :
  forward {| _amplitude := λ _, [q 2 1];
             _phase := λ _, [[q 1 10; q 9 10]] |} [x0]
  = inr [q (-2) 1].
Proof. vm_compute. qc_entries. Qed.

Lemma forward_spec_witness :
  ∃ out, forward example_state [[1; -1]%Qc] = inr out
         ∧ length out = 1%nat
         ∧ out !! 0%nat = Some (q 2 1 * - 1)%Qc.
Proof.
  destruct (forward_spec example_state [[1; -1]%Qc] eq_refl eq_refl)
    as (out & Hout & Hlen & Hsign).
  { repeat constructor. }
  exists out. split; [exact Hout|]. split; [exact Hlen|].
  destruct (Hsign 0%nat (q 2 1) (q 1 10) (q 9 10) eq_refl eq_refl)
    as [(Hclass & _)|(_ & _ & Hentry)].
  - vm_compute in Hclass. discriminate Hclass.
  - exact Hentry.
Defined.

(** C7. Where the two logits of a configuration are equal, the argmax is
    the first index (class 0) and the evaluator returns the amplitude with
    sign [+1]. *)
Theorem forward_tie (self : CombiningState) (x : Tensor2) (i : nat)
    (a c : Qc) :
  length (_amplitude self x) = length x →
  length (_phase self x) = length x →
  Forall (λ row, length row = 2%nat) (_phase self x) →
  _amplitude self x !! i = Some a →
  _phase self x !! i = Some [c; c] →
  argmax [c; c] = inr 0
  ∧ ∃ out, forward self x = inr out ∧ out !! i = Some a.
Proof.
  intros HA HP Htwo Ha Hrow. split; [apply argmax_tie|].
  destruct (forward_entries self x HA HP Htwo) as (out & Hout & _ & Hent).
  exists out. split; [done|].
  rewrite (Hent i a _ 0 Ha Hrow (argmax_tie c)).
  change (1 - 2 * 0) with 1. by rewrite Qc_of_Z_1, Qcmult_1_r.
Qed.

Lemma forward_tie_witness :
  argmax [q 1 2; q 1 2] = inr 0
  ∧ ∃ out, forward tie_state [[1; -1]%Qc] = inr out
           ∧ out !! 0%nat = Some (q 2 1).
Proof.
  apply (forward_tie tie_state [[1; -1]%Qc] 0 (q 2 1) (q 1 2));
    try reflexivity.
  repeat constructor.
Defined.

(** ** [optimise_scale] *)

Lemma torch_dot_same_length (a b : Tensor1) :
  length a = length b → torch_dot a b = inr (inner a b).
Proof. intros Hlen. unfold torch_dot. by rewrite decide_True. Qed.

(** C2. For a target vector [φ] and predictions [ψ(x)] of the same length
    with [⟨φ,φ⟩ ≠ 0], [optimise_scale] returns [-⟨φ,ψ(x)⟩ / ⟨φ,φ⟩]. *)
Theorem optimise_scale_spec (ψ : AmplitudeNet) (x : Tensor2) (φ : Tensor1) :
  length (ψ x) = length φ →
  inner φ φ ≠ 0%Qc →
  optimise_scale ψ (x, φ) = inr (- inner φ (ψ x) / inner φ φ)%Qc.
Proof.
  intros Hlen HA. unfold optimise_scale.
  rewrite !torch_dot_same_length by done. cbn.
  by rewrite decide_True.
Qed.

Lemma optimise_scale_spec_witness :
  optimise_scale example_ψ (example_x, example_φ)
  = inr (- inner example_φ (example_ψ example_x)
         / inner example_φ example_φ)%Qc.
Proof.
  apply (optimise_scale_spec example_ψ example_x example_φ).
  - reflexivity.
  - intros H. apply (f_equal this) in H. vm_compute in H. discriminate H.
Defined.

(** C3, as the code has it. For [φ = [1, 2, 3]] and predictions [[2, 4, 6]]
    (that is [2φ]), [optimise_scale] returns exactly [-2]: [A = 14],
    [B = 28], [-B / A = -2]. *)
Theorem optimise_scale_doubling (x : Tensor2) :
  optimise_scale example_ψ (x, example_φ) = inr (q (-2) 1).
Proof.
  unfold optimise_scale, example_ψ.
  rewrite !torch_dot_same_length by reflexivity.
  vm_compute. qc_entries.
Qed.

(** C3, as stated, fails: the result is not [-1]. *)
Lemma doubling_scale_is_not_minus_one :
  optimise_scale example_ψ (example_x, example_φ) ≠ inr (q (-1) 1).
Proof.
  intros H. vm_compute in H.
  injection H as H. discriminate H.
Qed.

(** ** The driver's monad: runs and traces *)

Section Runs.
Context {B : Backend} (E : Engine).

Lemma bind_run {A C} (m : M A) (f : A → M C) (w : World) :
  (m ≫= f) w =
  match m w with
  | (w', inl e) => (w', inl e)
  | (w', inr a) => f a w'
  end.
Proof. reflexivity. Qed.

Lemma bind_raises {A C} (m : M A) (f : A → M C) (w w' : World) (e : exn) :
  m w = (w', inl e) → (m ≫= f) w = (w', inl e).
Proof. intros Hm. by rewrite bind_run, Hm. Qed.

Lemma bind_returns {A C} (m : M A) (f : A → M C) (w w' : World) (a : A) :
  m w = (w', inr a) → (m ≫= f) w = f a w'.
Proof. intros Hm. by rewrite bind_run, Hm. Qed.

Lemma extends_mret {A} (a : A) : extends (mret a).
Proof. intros w. done. Qed.

Lemma extends_lift {A} (r : result A) : extends (lift r).
Proof. intros w. done. Qed.

Lemma extends_bind {A C} (m : M A) (f : A → M C) :
  extends m → (∀ a, extends (f a)) → extends (m ≫= f).
Proof.
  intros Hm Hf w. rewrite bind_run. specialize (Hm w).
  destruct (m w) as [w' [e|a]]; [done|].
  etrans; [exact Hm|apply Hf].
Qed.

Lemma extends_log (msg : string) : extends (log msg).
Proof. intros w. by apply prefix_app_r. Qed.

Lemma extends_save (st : CombiningState) (f : string) : extends (save st f).
Proof. intros w. by apply prefix_app_r. Qed.

Lemma extends_load (f : string) : extends (load f).
Proof. intros w. by apply prefix_app_r. Qed.

Lemma extends_c_sample_some f poly opts shape :
  extends (c_sample_some E f poly opts shape).
Proof.
  intros w. unfold c_sample_some. cbn.
  destruct (files w !! f); [destruct sample_some|]; by apply prefix_app_r.
Qed.

Lemma extends_c_sample_difference f1 f2 poly opts shape :
  extends (c_sample_difference E f1 f2 poly opts shape).
Proof.
  intros w. unfold c_sample_difference. cbn.
  destruct (files w !! f1); [destruct (files w !! f2)|];
    [destruct sample_difference| |]; by apply prefix_app_r.
Qed.

Lemma extends_c_merge a b : extends (c_merge E a b).
Proof. intros w. by apply prefix_app_r. Qed.

Lemma extends_train_amplitude ψ ds cfg gpu :
  extends (train_amplitude E ψ ds cfg gpu).
Proof.
  intros w. unfold train_amplitude.
  destruct fit_amplitude. by apply prefix_app_r.
Qed.

Lemma extends_train_phase ψ ds cfg gpu :
  extends (train_phase E ψ ds cfg gpu).
Proof.
  intros w. unfold train_phase.
  destruct fit_phase. by apply prefix_app_r.
Qed.

(** The trace of [m] is a prefix of the trace of [m ≫= f]. *)
Lemma trace_bind {A C} (m : M A) (f : A → M C) (w : World) :
  (∀ a, extends (f a)) →
  trace (m w).1 `prefix_of` trace ((m ≫= f) w).1.
Proof.
  intros Hf. rewrite bind_run.
  destruct (m w) as [w' [e|a]]; [done|apply Hf].
Qed.

End Runs.

Create HintDb swo discriminated.
#[local] Hint Resolve extends_mret extends_lift extends_log extends_save
  extends_load extends_c_sample_some extends_c_sample_difference
  extends_c_merge extends_train_amplitude extends_train_phase : swo.

(** Decomposes a computation along its binds and case distinctions. *)
Ltac extends_step :=
  match goal with
  | |- extends (_ ≫= _) => apply extends_bind; [|intros]
  | |- extends (let '(_, _) := ?p in _) => destruct p
  | |- extends (if ?b then _ else _) => destruct b
  | |- extends _ => solve [auto with swo]
  end.
Ltac solve_extends := intros; repeat extends_step.

Section Driver_traces.
Context {B : Backend} (E : Engine).

Lemma extends_generate_train_data f config :
  extends (generate_train_data E f config).
Proof. unfold generate_train_data. solve_extends. Qed.

Lemma extends_generate_more_data f1 f2 scale config :
  extends (generate_more_data E f1 f2 scale config).
Proof. unfold generate_more_data. solve_extends. Qed.

Lemma extends_swo_retrain ψ r1 r2 config :
  extends (swo_retrain E ψ r1 r2 config).
Proof.
  unfold swo_retrain. destruct ψ. solve_extends.
Qed.

Hint Resolve extends_generate_train_data extends_generate_more_data
  extends_swo_retrain : swo.

Lemma extends_swo_difference ψ samples ta r config :
  extends (swo_difference E ψ samples ta r config).
Proof. unfold swo_difference. destruct ψ. solve_extends. Qed.

Lemma extends_swo_first ψ config : extends (swo_first E ψ config).
Proof. unfold swo_first. destruct ψ. solve_extends. Qed.

Hint Resolve extends_swo_difference extends_swo_first : swo.

Lemma extends_swo_step ψ config : extends (swo_step E ψ config).
Proof. unfold swo_step. solve_extends. Qed.

Hint Resolve extends_swo_step : swo.

Lemma extends_main_loop ψ options iterations :
  extends (main_loop E ψ options iterations).
Proof.
  revert ψ. induction iterations as [|i iters IH]; intros ψ; cbn [main_loop].
  - solve_extends.
  - apply extends_bind; [auto with swo|intros _].
    apply extends_bind; [auto with swo|intros ψ']. apply IH.
Qed.

Lemma trace_c_sample_some f poly opts shape (w : World) :
  trace (c_sample_some E f poly opts shape w).1 =
  trace w ++ [EvSampleSome f (files w !! f) poly opts].
Proof.
  unfold c_sample_some. cbn.
  destruct (files w !! f); [destruct sample_some|]; done.
Qed.

Lemma trace_c_sample_difference f1 f2 poly opts shape (w : World) :
  trace (c_sample_difference E f1 f2 poly opts shape w).1 =
  trace w ++ [EvSampleDifference f1 f2 (files w !! f1) (files w !! f2)
                poly opts].
Proof.
  unfold c_sample_difference. cbn.
  destruct (files w !! f1); [destruct (files w !! f2)|];
    [destruct sample_difference| |]; done.
Qed.

Lemma run_c_sample_difference f1 f2 poly opts shape (w : World)
    st1 st2 r g :
  files w !! f1 = Some st1 →
  files w !! f2 = Some st2 →
  sample_difference E (rng w) st1 st2 poly opts shape = (r, g) →
  c_sample_difference E f1 f2 poly opts shape w =
  (with_rng g
     (emit (EvSampleDifference f1 f2 (Some st1) (Some st2) poly opts) w),
   r).
Proof.
  intros H1 H2 Hr. unfold c_sample_difference. cbn.
  by rewrite H1, H2, Hr.
Qed.

Lemma run_load f (w : World) st :
  files w !! f = Some st →
  load f w = (emit (EvLoad f (Some st)) w, inr st).
Proof. intros Hf. unfold load. by rewrite Hf. Qed.

Lemma bind_lift {A C} (r : result A) (f : A → M C) (w : World) :
  (lift r ≫= f) w =
  match r with
  | inl e => (w, inl e)
  | inr a => f a w
  end.
Proof. rewrite bind_run. unfold lift. by destruct r. Qed.

(** C9. Every [swo_step] first writes the current combined state to the
    checkpoint file and only then calls the sampler with that file name;
    what the sampler finds under the name is the state just saved. *)
Theorem swo_step_saves_before_sampling (ψ_amplitude : AmplitudeNet)
    (ψ_phase : PhaseNet) (config : Config) (w : World) :
  ∃ poly opts rest,
    trace (swo_step E (ψ_amplitude, ψ_phase) config w).1 =
    trace w ++
      [EvSave tempfile_name
         {| _amplitude := ψ_amplitude; _phase := ψ_phase |};
       EvLog "Generating the training data set...";
       EvSampleSome tempfile_name
         (Some {| _amplitude := ψ_amplitude; _phase := ψ_phase |})
         poly opts] ++ rest.
Proof.
  set (st := {| _amplitude := ψ_amplitude; _phase := ψ_phase |}).
  set (w2 := emit (EvLog "Generating the training data set...")
               (save st tempfile_name w).1).
  set (poly := {| poly_hamiltonian := hamiltonian config;
                  poly_roots := roots config; poly_scale := None |}).
  set (opts := {| co_number_spins := number_spins config;
                  co_magnetisation := magnetisation config;
                  co_batch_size := 1024; co_steps := steps config |}).
  assert (Hsample :
    trace (c_sample_some E tempfile_name poly opts (16, 1) w2).1
    `prefix_of` trace (swo_step E (ψ_amplitude, ψ_phase) config w).1).
  { unfold swo_step. etrans; [|apply trace_bind; solve_extends].
    unfold swo_first.
    rewrite (bind_returns (save st tempfile_name) _ w
               (save st tempfile_name w).1 ()) by reflexivity.
    rewrite (bind_returns (log _) _ _ w2 ()) by reflexivity.
    etrans; [|apply trace_bind; solve_extends].
    unfold generate_train_data. apply trace_bind. solve_extends. }
  destruct Hsample as [rest Hrest]. exists poly, opts, rest.
  rewrite Hrest, trace_c_sample_some. subst w2. cbn.
  rewrite lookup_insert_eq, <- !app_assoc. reflexivity.
Qed.

Lemma checkpoint_names_differ : tempfile_name_current ≠ tempfile_name.
Proof. discriminate. Qed.

(** C8. In the difference-sampling branch the scale handed to
    [generate_more_data], and from there to the polynomial filter, is the
    absolute value of [optimise_scale]'s result, hence non-negative. *)
Theorem swo_difference_scale (ψ_amplitude : AmplitudeNet)
    (ψ_phase : PhaseNet) (samples : Tensor2) (target_amplitudes : Tensor1)
    (result : Ensemble) (config : Config) (w : World) (s : Qc) :
  optimise_scale ψ_amplitude (samples, target_amplitudes) = inr s →
  let st := {| _amplitude := ψ_amplitude; _phase := ψ_phase |} in
  (0 ≤ Qcabs s)%Qc
  ∧ swo_difference E (ψ_amplitude, ψ_phase) samples target_amplitudes
      result config w
    = (extra_result ← generate_more_data E tempfile_name_current
                        tempfile_name (Qcabs s) config;
       swo_retrain E (ψ_amplitude, ψ_phase) result extra_result config)
        (save st tempfile_name_current
           (emit (EvLog "Generating more data...") w)).1
  ∧ ∃ opts rest,
      trace (swo_difference E (ψ_amplitude, ψ_phase) samples
               target_amplitudes result config w).1 =
      trace w ++
        [EvLog "Generating more data...";
         EvSave tempfile_name_current st;
         EvLog "scale = {}";
         EvSampleDifference tempfile_name_current tempfile_name
           (Some st) (files w !! tempfile_name)
           {| poly_hamiltonian := hamiltonian config;
              poly_roots := roots config;
              poly_scale := Some (Qcabs s) |} opts] ++ rest.
Proof.
  intros Hs st. split; [apply Qcabs_nonneg|].
  assert (Hrun :
    swo_difference E (ψ_amplitude, ψ_phase) samples target_amplitudes
      result config w
    = (extra_result ← generate_more_data E tempfile_name_current
                        tempfile_name (Qcabs s) config;
       swo_retrain E (ψ_amplitude, ψ_phase) result extra_result config)
        (save st tempfile_name_current
           (emit (EvLog "Generating more data...") w)).1).
  { unfold swo_difference.
    rewrite (bind_returns (log _) _ w
               (emit (EvLog "Generating more data...") w) ())
      by reflexivity.
    rewrite (bind_returns (lift _) _ _
               (emit (EvLog "Generating more data...") w) s)
      by (unfold lift; by rewrite Hs).
    reflexivity. }
  split; [exact Hrun|]. rewrite Hrun.
  set (w2 := (save st tempfile_name_current
                (emit (EvLog "Generating more data...") w)).1).
  set (opts := {| co_number_spins := number_spins config;
                  co_magnetisation := magnetisation config;
                  co_batch_size := 1024; co_steps := steps config |}).
  set (poly := {| poly_hamiltonian := hamiltonian config;
                  poly_roots := roots config;
                  poly_scale := Some (Qcabs s) |}).
  assert (Hsample :
    trace (c_sample_difference E tempfile_name_current tempfile_name
             poly opts (16, 1) (emit (EvLog "scale = {}") w2)).1
    `prefix_of`
    trace ((extra_result ← generate_more_data E tempfile_name_current
                             tempfile_name (Qcabs s) config;
            swo_retrain E (ψ_amplitude, ψ_phase) result extra_result
              config) w2).1).
  { etrans; [|apply trace_bind; solve_extends].
    unfold generate_more_data.
    rewrite (bind_returns (log _) _ w2 (emit (EvLog "scale = {}") w2) ())
      by reflexivity.
    apply trace_bind. solve_extends. }
  destruct Hsample as [rest Hrest]. exists opts, rest.
  rewrite Hrest, trace_c_sample_difference. subst w2. cbn.
  rewrite lookup_insert_eq,
    (lookup_insert_ne _ _ _ _ checkpoint_names_differ), <- !app_assoc.
  reflexivity.
Qed.

(** C6. For a nonzero scale, [generate_more_data] replaces each sampled
    difference value [v] by [(v + ψ_new(x)) / scale], with [ψ_new] the
    combined state loaded from the new checkpoint, leaving configurations
    and counts as they are; the merge that follows in [swo_step] receives
    the rescaled ensemble. *)
Theorem generate_more_data_rescales (new_state old_state : string)
    (scale : Qc) (config : Config) (w : World)
    (ψ_new ψ_old : CombiningState) (sampled : Ensemble) (g : Rng)
    (prediction : Tensor1) :
  scale ≠ 0%Qc →
  files w !! new_state = Some ψ_new →
  files w !! old_state = Some ψ_old →
  sample_difference E (rng w) ψ_new ψ_old
    {| poly_hamiltonian := hamiltonian config; poly_roots := roots config;
       poly_scale := Some scale |}
    {| co_number_spins := number_spins config;
       co_magnetisation := magnetisation config;
       co_batch_size := 1024; co_steps := steps config |} (16, 1)
  = (inr sampled, g) →
  forward ψ_new (ens_samples sampled) = inr prediction →
  length prediction = length (ens_values sampled) →
  let rescaled :=
    {| ens_samples := ens_samples sampled;
       ens_values := zip_with (λ v p, (v + p) / scale)%Qc
                       (ens_values sampled) prediction;
       ens_counts := ens_counts sampled |} in
  (generate_more_data E new_state old_state scale config w).2
  = inr rescaled
  ∧ ∀ (ψ : AmplitudeNet * PhaseNet) (result : Ensemble), ∃ opts rest,
      trace ((extra_result ← generate_more_data E new_state old_state
                               scale config;
              swo_retrain E ψ result extra_result config) w).1 =
      trace w ++
        [EvLog "scale = {}";
         EvSampleDifference new_state old_state (Some ψ_new) (Some ψ_old)
           {| poly_hamiltonian := hamiltonian config;
              poly_roots := roots config; poly_scale := Some scale |} opts;
         EvLoad new_state (Some ψ_new);
         EvMerge result rescaled] ++ rest.
Proof.
  intros _ Hnew Hold Hsample Hforward Hlen rescaled.
  set (w' := emit (EvLoad new_state (Some ψ_new))
    (with_rng g
       (emit (EvSampleDifference new_state old_state (Some ψ_new)
                (Some ψ_old)
                {| poly_hamiltonian := hamiltonian config;
                   poly_roots := roots config; poly_scale := Some scale |}
                {| co_number_spins := number_spins config;
                   co_magnetisation := magnetisation config;
                   co_batch_size := 1024; co_steps := steps config |})
          (emit (EvLog "scale = {}") w)))).
  assert (Hrun : generate_more_data E new_state old_state scale config w
                 = (w', inr rescaled)).
  { unfold generate_more_data.
    rewrite (bind_returns (log _) _ w (emit (EvLog "scale = {}") w) ())
      by reflexivity.
    rewrite (bind_returns _ _ _ _ _
               (run_c_sample_difference _ _ _ _ _
                  (emit (EvLog "scale = {}") w) _ _ _ _ Hnew Hold Hsample)).
    unfold to_tensors.
    erewrite (bind_returns (load new_state));
      [|apply run_load; exact Hnew].
    rewrite bind_lift, Hforward, bind_lift.
    unfold inplace2. rewrite decide_True by done.
    unfold mret, M_ret, result_ret, set_values, rescaled. subst w'.
    do 3 f_equal. apply fmap_zip_with_compose. }
  split; [by rewrite Hrun|].
  intros [ψ_amplitude ψ_phase] result.
  rewrite (bind_returns _ _ _ _ _ Hrun).
  assert (Hmerge : trace (c_merge E result rescaled w').1
                   `prefix_of`
                   trace (swo_retrain E (ψ_amplitude, ψ_phase) result
                            rescaled config w').1).
  { unfold swo_retrain. apply trace_bind. solve_extends. }
  destruct Hmerge as [rest Hrest]. eexists _, rest.
  rewrite Hrest. subst w'. cbn. rewrite <- !app_assoc. reflexivity.
Qed.

Lemma derived_targets_torch (φ : Tensor1) :
  derived_targets φ (torch_abs φ) (torch_where_ge0 φ).
Proof.
  unfold derived_targets, torch_abs, torch_where_ge0.
  rewrite !length_fmap. split_and!; [done..|].
  intros i v Hv. rewrite !list_lookup_fmap, Hv. cbn. split_and!; [done|..].
  - intros Hge. by rewrite decide_True.
  - intros Hlt. rewrite decide_False; [done|]. by apply Qclt_not_le.
Qed.

Lemma run_generate_train_data filename config (w w' : World)
    samples ta ts result :
  generate_train_data E filename config w
  = (w', inr (samples, ta, ts, result)) →
  samples = ens_samples result
  ∧ ta = torch_abs (ens_values result)
  ∧ ts = torch_where_ge0 (ens_values result).
Proof.
  unfold generate_train_data. rewrite bind_run.
  destruct (c_sample_some _ _ _ _ _ w) as [w1 [e|r]]; [done|].
  unfold to_tensors. rewrite bind_run. cbn. unfold mret, M_ret.
  intros ?. by simplify_eq.
Qed.

Lemma run_swo_retrain ψ result extra config (w w' : World) ψ' merged :
  merge E result extra = inr merged →
  swo_retrain E ψ result extra config w = (w', inr ψ') →
  trace w' =
  trace w ++
    [EvMerge result extra;
     EvLog "Training on {} spin configurations...";
     EvTrainAmplitude
       (ens_samples merged, torch_abs (ens_values merged)) true;
     EvTrainPhase
       (ens_samples merged, torch_where_ge0 (ens_values merged)) true].
Proof.
  intros Hmerge. unfold swo_retrain. destruct ψ as [ψ_amplitude ψ_phase].
  rewrite (bind_returns (c_merge E result extra) _ w
             (emit (EvMerge result extra) w) merged)
    by (unfold c_merge; by rewrite Hmerge).
  unfold to_tensors.
  rewrite (bind_returns (log _) _ _
             (emit (EvLog "Training on {} spin configurations...")
                (emit (EvMerge result extra) w)) ()) by reflexivity.
  rewrite bind_lift. unfold TensorDataset at 1.
  destruct (decide (length (ens_samples merged)
                    = length (torch_abs (ens_values merged))))
    as [_|]; [|done].
  cbn [mret result_ret]. rewrite bind_run. unfold train_amplitude at 1.
  destruct (fit_amplitude E _ _ _ _ _) as [[e|ψa'] g1]; [done|].
  rewrite bind_lift. unfold TensorDataset.
  destruct (decide (length (ens_samples merged)
                    = length (torch_where_ge0 (ens_values merged))))
    as [_|]; [|done].
  cbn [mret result_ret]. rewrite bind_run. unfold train_phase.
  destruct (fit_phase E _ _ _ _ _) as [[e|ψp'] g2]; [done|].
  intros [= <- _]. cbn. rewrite <- !app_assoc. reflexivity.
Qed.

(** C5. The supervised targets derived from the sampled values [φ] are
    [|φ|] for the amplitudes and, for the phases, class 0 where [φ >= 0]
    and class 1 where [φ < 0]: both for the data [generate_train_data]
    returns and for the data the second training pass of [swo_step] is
    run on after the merge. *)
Theorem targets_spec (filename : string) (config : Config) (w w' : World)
    (samples : Tensor2) (target_amplitudes : Tensor1)
    (target_signs : list Z) (result extra merged : Ensemble)
    (ψ ψ' : AmplitudeNet * PhaseNet) (w2 w3 : World) :
  generate_train_data E filename config w
  = (w', inr (samples, target_amplitudes, target_signs, result)) →
  merge E result extra = inr merged →
  swo_retrain E ψ result extra config w2 = (w3, inr ψ') →
  samples = ens_samples result
  ∧ derived_targets (ens_values result) target_amplitudes target_signs
  ∧ ∃ amplitudes2 phases2,
      derived_targets (ens_values merged) amplitudes2 phases2
      ∧ trace w3 =
        trace w2 ++
          [EvMerge result extra;
           EvLog "Training on {} spin configurations...";
           EvTrainAmplitude (ens_samples merged, amplitudes2) true;
           EvTrainPhase (ens_samples merged, phases2) true].
Proof.
  intros Hdata Hmerge Hretrain.
  apply run_generate_train_data in Hdata as (-> & -> & ->).
  split; [done|]. split; [apply derived_targets_torch|].
  exists (torch_abs (ens_values merged)),
         (torch_where_ge0 (ens_values merged)).
  split; [apply derived_targets_torch|].
  by eapply run_swo_retrain.
Qed.

(** ** A vanishing norm *)

Lemma optimise_scale_zero_norm (ψ : AmplitudeNet) (x : Tensor2)
    (φ : Tensor1) :
  inner φ φ = 0%Qc →
  ∃ e, optimise_scale ψ (x, φ) = inl e
       ∧ (length (ψ x) = length φ → e = AssertionError).
Proof.
  intros HA. unfold optimise_scale.
  rewrite (torch_dot_same_length φ φ) by done. cbn. unfold torch_dot.
  destruct (decide (length φ = length (ψ x))) as [Hlen|Hlen]; cbn.
  - rewrite decide_False by (intros Hne; by apply Hne).
    by exists AssertionError.
  - exists RuntimeError. split; [done|]. intros Heq. by destruct Hlen.
Qed.

Lemma swo_difference_raises ψ_amplitude ψ_phase samples ta result config
    (w : World) (e : exn) :
  optimise_scale ψ_amplitude (samples, ta) = inl e →
  swo_difference E (ψ_amplitude, ψ_phase) samples ta result config w
  = (emit (EvLog "Generating more data...") w, inl e).
Proof.
  intros He. unfold swo_difference.
  rewrite (bind_returns (log _) _ w
             (emit (EvLog "Generating more data...") w) ())
    by reflexivity.
  by rewrite bind_lift, He.
Qed.

Lemma main_loop_app ψ options (l1 l2 : list Z) (w : World) :
  main_loop E ψ options (l1 ++ l2) w
  = (main_loop E ψ options l1 ≫= λ ψ', main_loop E ψ' options l2) w.
Proof.
  revert ψ w. induction l1 as [|i l1 IH]; intros ψ w; [done|].
  cbn [app main_loop]. rewrite !bind_run. cbn [log].
  rewrite !bind_run.
  destruct (swo_step E ψ options _) as [w' [e|ψ']]; [done|].
  rewrite IH. by rewrite bind_run.
Qed.

(** C4, as the code has it. When [⟨φ,φ⟩ = 0], [optimise_scale] fails (with
    the assertion error, if the prediction has the length of [φ]) and
    nothing catches the failure: at whichever outer iteration it occurs,
    [main] stops there with that error, the remaining iterations are not
    run. *)
Theorem zero_norm_aborts_run (options : Config)
    (ψ0_amplitude : AmplitudeNet) (ψ0_phase : PhaseNet) (w0 w w1 : World)
    (completed remaining : list Z) (i : Z)
    (ψ_amplitude ψ1_amplitude : AmplitudeNet) (ψ_phase ψ1_phase : PhaseNet)
    (samples : Tensor2) (target_amplitudes : Tensor1) (result : Ensemble) :
  py_range 0 (epochs options) 1 = inr (completed ++ i :: remaining) →
  difference_sampling options = true →
  main_loop E (ψ0_amplitude, ψ0_phase) options completed w0
  = (w, inr (ψ_amplitude, ψ_phase)) →
  swo_first E (ψ_amplitude, ψ_phase) options
    (emit (EvLog "----------{}----------") w)
  = (w1, inr (ψ1_amplitude, ψ1_phase, samples, target_amplitudes, result)) →
  inner target_amplitudes target_amplitudes = 0%Qc →
  ∃ e, optimise_scale ψ1_amplitude (samples, target_amplitudes) = inl e
       ∧ (length (ψ1_amplitude samples) = length target_amplitudes →
          e = AssertionError)
       ∧ main E ψ0_amplitude ψ0_phase options w0
         = (emit (EvLog "Generating more data...") w1, inl e).
Proof.
  intros Hrange Hdiff Hcompleted Hfirst Hnorm.
  destruct (optimise_scale_zero_norm ψ1_amplitude samples target_amplitudes
              Hnorm) as (e & He & Hkind).
  exists e. split; [done|]. split; [done|].
  unfold main. rewrite bind_lift, Hrange, bind_run, main_loop_app.
  rewrite (bind_returns _ _ _ _ _ Hcompleted). cbn [main_loop].
  rewrite (bind_returns (log _) _ w
             (emit (EvLog "----------{}----------") w) ())
    by reflexivity.
  unfold swo_step at 1. rewrite !bind_run, Hfirst, Hdiff.
  by rewrite (swo_difference_raises _ _ _ _ _ _ _ e He).
Qed.

End Driver_traces.

(** ** The driver on the small engine *)

Lemma swo_difference_scale_witness :
  optimise_scale toy_amplitude (toy_samples, [q 3 2; q 1 2])
  = inr (q (-8) 5)
  ∧ (0 ≤ Qcabs (q (-8) 5))%Qc
  ∧ ∃ opts rest,
      trace (swo_difference (toy_engine toy_first toy_extra toy_amplitude)
               (toy_amplitude, toy_phase) toy_samples [q 3 2; q 1 2]
               toy_first (toy_config 2 true) toy_world).1 =
      trace toy_world ++
        [EvLog "Generating more data...";
         EvSave tempfile_name_current
           {| _amplitude := toy_amplitude; _phase := toy_phase |};
         EvLog "scale = {}";
         EvSampleDifference tempfile_name_current tempfile_name
           (Some {| _amplitude := toy_amplitude; _phase := toy_phase |})
           (files toy_world !! tempfile_name)
           {| poly_hamiltonian := hamiltonian (toy_config 2 true);
              poly_roots := roots (toy_config 2 true);
              poly_scale := Some (Qcabs (q (-8) 5)) |} opts] ++ rest.
Proof.
  assert (Hs : optimise_scale toy_amplitude (toy_samples, [q 3 2; q 1 2])
               = inr (q (-8) 5)).
  { vm_compute. qc_entries. }
  split; [exact Hs|].
  destruct (swo_difference_scale
              (toy_engine toy_first toy_extra toy_amplitude)
              toy_amplitude toy_phase toy_samples [q 3 2; q 1 2] toy_first
              (toy_config 2 true) toy_world (q (-8) 5) Hs)
    as (Hnonneg & _ & Htrace).
  split; [exact Hnonneg|exact Htrace].
Defined.

Lemma generate_more_data_rescales_witness :
  (generate_more_data (toy_engine toy_first toy_extra toy_amplitude)
     tempfile_name_current tempfile_name (q 1 2) (toy_config 2 true)
     (toy_checkpointed toy_amplitude toy_phase)).2
  = inr {| ens_samples := toy_samples;
           ens_values := zip_with (λ v p, (v + p) / q 1 2)%Qc
                           [q 1 1; q (-3) 1] [q 2 1; q (-2) 1];
           ens_counts := [1; 1] |}.
Proof.
  refine (proj1 (generate_more_data_rescales
            (toy_engine toy_first toy_extra toy_amplitude)
            tempfile_name_current tempfile_name (q 1 2) (toy_config 2 true)
            (toy_checkpointed toy_amplitude toy_phase)
            {| _amplitude := toy_amplitude; _phase := toy_phase |}
            {| _amplitude := toy_amplitude; _phase := toy_phase |}
            toy_extra 1%nat [q 2 1; q (-2) 1] _ _ _ _ _ _)).
  - intros H. apply (f_equal this) in H. vm_compute in H. discriminate H.
  - vm_compute. reflexivity.
  - vm_compute. reflexivity.
  - reflexivity.
  - vm_compute. qc_entries.
  - reflexivity.
Defined.

Example rescaled_values :
  zip_with (λ v p, (v + p) / q 1 2)%Qc [q 1 1; q (-3) 1] [q 2 1; q (-2) 1]
  = [q 6 1; q (-10) 1].
Proof. vm_compute. qc_entries. Qed.

Lemma targets_spec_witness :
  toy_samples = ens_samples toy_first
  ∧ derived_targets (ens_values toy_first)
      (torch_abs (ens_values toy_first))
      (torch_where_ge0 (ens_values toy_first))
  ∧ ∃ amplitudes2 phases2,
      derived_targets (ens_values toy_first ++ ens_values toy_extra)
        amplitudes2 phases2
      ∧ trace (swo_retrain (toy_engine toy_first toy_extra toy_amplitude)
                 (toy_amplitude, toy_phase) toy_first toy_extra
                 (toy_config 2 true) toy_world).1 =
        trace toy_world ++
          [EvMerge toy_first toy_extra;
           EvLog "Training on {} spin configurations...";
           EvTrainAmplitude (toy_samples ++ toy_samples, amplitudes2) true;
           EvTrainPhase (toy_samples ++ toy_samples, phases2) true].
Proof.
  refine (targets_spec (toy_engine toy_first toy_extra toy_amplitude)
            tempfile_name (toy_config 2 true)
            (toy_checkpointed toy_amplitude toy_phase)
            (generate_train_data
               (toy_engine toy_first toy_extra toy_amplitude)
               tempfile_name (toy_config 2 true)
               (toy_checkpointed toy_amplitude toy_phase)).1
            toy_samples (torch_abs (ens_values toy_first))
            (torch_where_ge0 (ens_values toy_first))
            toy_first toy_extra
            {| ens_samples := toy_samples ++ toy_samples;
               ens_values := ens_values toy_first ++ ens_values toy_extra;
               ens_counts := ens_counts toy_first ++ ens_counts toy_extra |}
            (toy_amplitude, toy_phase) (toy_amplitude, toy_phase)
            toy_world
            (swo_retrain (toy_engine toy_first toy_extra toy_amplitude)
               (toy_amplitude, toy_phase) toy_first toy_extra
               (toy_config 2 true) toy_world).1
            _ _ _).
  - vm_compute. reflexivity.
  - reflexivity.
  - vm_compute. reflexivity.
Defined.

Example toy_targets :
  torch_abs (ens_values toy_first) = [q 3 2; q 1 2]
  ∧ torch_where_ge0 (ens_values toy_first) = [0; 1].
Proof. split; vm_compute; qc_entries. Qed.

Lemma zero_norm_aborts_run_witness :
  ∃ e,
    optimise_scale toy_amplitude
      (toy_samples, torch_abs (ens_values toy_null)) = inl e
    ∧ (length (toy_amplitude toy_samples)
       = length (torch_abs (ens_values toy_null)) → e = AssertionError)
    ∧ main (toy_engine toy_null toy_extra toy_amplitude)
        toy_amplitude toy_phase (toy_config 2 true) toy_world
      = (emit (EvLog "Generating more data...")
           (swo_first (toy_engine toy_null toy_extra toy_amplitude)
              (toy_amplitude, toy_phase) (toy_config 2 true)
              (emit (EvLog "----------{}----------") toy_world)).1,
         inl e).
Proof.
  refine (zero_norm_aborts_run
            (toy_engine toy_null toy_extra toy_amplitude)
            (toy_config 2 true) toy_amplitude toy_phase
            toy_world toy_world _ [] [1] 0
            toy_amplitude toy_amplitude toy_phase toy_phase
            toy_samples (torch_abs (ens_values toy_null)) toy_null
            _ _ _ _ _).
  - reflexivity.
  - reflexivity.
  - reflexivity.
  - vm_compute. reflexivity.
  - apply Qc_is_canon. reflexivity.
Defined.

(** C4, as stated, fails: with two outer iterations requested and sampled
    values that all vanish, the assertion error leaves [main]; the run does
    not complete and the second iteration never writes its checkpoint. *)
Lemma zero_norm_run_not_contained :
  (main (toy_engine toy_null toy_extra toy_amplitude)
     toy_amplitude toy_phase (toy_config 2 true) toy_world).2
  = inl AssertionError
  ∧ ¬ (∃ u,
         (main (toy_engine toy_null toy_extra toy_amplitude)
            toy_amplitude toy_phase (toy_config 2 true) toy_world).2
         = inr u)
  ∧ length (List.filter (is_save tempfile_name)
              (trace (main (toy_engine toy_null toy_extra toy_amplitude)
                        toy_amplitude toy_phase (toy_config 2 true)
                        toy_world).1)) = 1%nat.
Proof.
  assert (Hrun :
    (main (toy_engine toy_null toy_extra toy_amplitude)
       toy_amplitude toy_phase (toy_config 2 true) toy_world).2
    = inl AssertionError) by (vm_compute; reflexivity).
  split; [exact Hrun|]. split.
  - intros [u Hu]. rewrite Hrun in Hu. discriminate Hu.
  - vm_compute. reflexivity.
Qed.

(** Without vanishing values the same run completes both iterations. *)
Example toy_run_completes :
  (main (toy_engine toy_first toy_extra toy_amplitude)
     toy_amplitude toy_phase (toy_config 2 true) toy_world).2 = inr ()
  ∧ length (List.filter (is_save tempfile_name)
              (trace (main (toy_engine toy_first toy_extra toy_amplitude)
                        toy_amplitude toy_phase (toy_config 2 true)
                        toy_world).1)) = 2%nat.
Proof. split; vm_compute; reflexivity. Qed.

(** * Further properties of the driver *)

(** ** [_make_checkpoints_for]: shape, size and spacing *)

(** Beyond ten epochs the list is the multiples of [n // 10] below [n],
    followed by [n - 1] unless that is the last multiple. *)
Lemma make_checkpoints_large (n : Z) :
  10 < n →
  _make_checkpoints_for n =
  inr (if decide ((n - 1) / (n / 10) * (n / 10) = n - 1)
       then (λ i : nat, 0 + Z.of_nat i * (n / 10))
              <$> seq 0 (S (Z.to_nat ((n - 1) / (n / 10))))
       else ((λ i : nat, 0 + Z.of_nat i * (n / 10))
               <$> seq 0 (S (Z.to_nat ((n - 1) / (n / 10))))) ++ [n - 1])
  ∧ 1 ≤ n / 10
  ∧ 9 ≤ (n - 1) / (n / 10) ≤ 18
  ∧ (n - 1) / (n / 10) * (n / 10) ≤ n - 1
    < (n - 1) / (n / 10) * (n / 10) + n / 10.
Proof.
  intros Hn. set (s := n / 10). set (m := (n - 1) / s).
  assert (Hs : 1 ≤ s) by (apply Z.div_le_lower_bound; lia).
  assert (Hns : 10 * s ≤ n < 10 * s + 10).
  { pose proof (Z.div_mod n 10 ltac:(lia)) as Hdm.
    pose proof (Z.mod_pos_bound n 10 ltac:(lia)). fold s in Hdm. lia. }
  assert (Hm9 : 9 ≤ m) by (apply Z.div_le_lower_bound; lia).
  assert (Hm18 : m < 19) by (apply Z.div_lt_upper_bound; lia).
  assert (Hms : m * s ≤ n - 1 < m * s + s).
  { pose proof (Z.div_mod (n - 1) s ltac:(lia)) as Hdm.
    pose proof (Z.mod_pos_bound (n - 1) s ltac:(lia)). fold m in Hdm. nia. }
  split; [|lia].
  unfold _make_checkpoints_for.
  destruct (decide (n ≤ 10)) as [|_]; [lia|]. fold s.
  unfold py_range, range_len.
  destruct (decide (s = 0)) as [|_]; [lia|].
  destruct (decide (0 < n)) as [_|]; [|lia].
  replace ((n - 0 - 1) / s) with m by (unfold m; f_equal; lia).
  replace (Z.to_nat (m + 1)) with (S (Z.to_nat m)) by lia.
  unfold mbind, result_bind, mret, result_ret, py_last.
  rewrite (arith_seq_last 0 s). unfold mret, result_ret. cbv beta iota.
  replace (0 + Z.of_nat (0 + Z.to_nat m) * s) with (m * s) by lia.
  destruct (decide (m * s = n - 1)) as [Heq|Hne].
  - rewrite decide_False by (intros Hne; by apply Hne). done.
  - by rewrite decide_True.
Qed.

Lemma make_checkpoints_small (n : Z) :
  n ≤ 10 →
  _make_checkpoints_for n = inr (Z.of_nat <$> seq 0 (Z.to_nat n)).
Proof.
  intros Hn. unfold _make_checkpoints_for. rewrite decide_True by done.
  destruct (decide (0 ≤ n)) as [Hpos|Hneg].
  - by apply py_range_unit_step.
  - unfold py_range, range_len.
    rewrite decide_False by lia. rewrite decide_False by lia.
    by replace (Z.to_nat n) with 0%nat by lia.
Qed.

(** X1. [_make_checkpoints_for] never raises: the step [n // 10] is only
    used where it is positive and [[-1]] only on a non-empty list. The list
    is empty exactly for [n <= 0], and otherwise starts with epoch 0. *)
Theorem make_checkpoints_total (n : Z) :
  ∃ l, _make_checkpoints_for n = inr l
       ∧ (n ≤ 0 ↔ l = [])
       ∧ (1 ≤ n → head l = Some 0).
Proof.
  destruct (decide (n ≤ 10)) as [Hle|Hgt].
  - eexists. split; [by apply make_checkpoints_small|].
    destruct (Z.to_nat n) as [|k] eqn:Hk.
    + split; [split; [done|lia]|lia].
    + split; [|done]. split; [lia|done].
  - destruct (make_checkpoints_large n ltac:(lia)) as (-> & _).
    eexists. split; [reflexivity|].
    destruct (decide _); cbn; (split; [split; [lia|done]|done]).
Qed.

(** X2. The list never has more than 19 entries, whatever the number of
    epochs; it has [n] entries up to ten epochs and at least ten beyond. *)
Theorem make_checkpoints_length (n : Z) :
  ∃ l, _make_checkpoints_for n = inr l
       ∧ (length l ≤ 19)%nat
       ∧ (n ≤ 10 → length l = Z.to_nat n)
       ∧ (10 < n → (10 ≤ length l)%nat).
Proof.
  destruct (decide (n ≤ 10)) as [Hle|Hgt].
  - eexists. split; [by apply make_checkpoints_small|].
    rewrite length_fmap, length_seq. lia.
  - destruct (make_checkpoints_large n ltac:(lia))
      as (-> & Hs & Hm & Hms).
    eexists. split; [reflexivity|].
    destruct (decide _) as [Heq|Hne];
      rewrite ?length_app, length_fmap, length_seq; cbn [length];
      [lia|].
    assert (n / 10 ≠ 1) by (intros H1; rewrite H1 in *; lia).
    assert (Hns : 10 * (n / 10) ≤ n < 10 * (n / 10) + 10).
    { pose proof (Z.div_mod n 10 ltac:(lia)).
      pose proof (Z.mod_pos_bound n 10 ltac:(lia)). lia. }
    assert ((n - 1) / (n / 10) < 15)
      by (apply Z.div_lt_upper_bound; lia).
    lia.
Qed.

Lemma lookup_multiples (s : Z) (len i : nat) (a : Z) :
  ((λ j : nat, 0 + Z.of_nat j * s) <$> seq 0 len) !! i = Some a →
  a = Z.of_nat i * s ∧ (i < len)%nat.
Proof.
  rewrite list_lookup_fmap_Some. intros (j & -> & Hj).
  apply lookup_seq in Hj as [-> ?]. split; [lia|done].
Qed.

(** X3. Consecutive checkpoints are at least one and at most
    [max 1 (n // 10)] epochs apart: no longer stretch of epochs goes without
    a progress line. *)
Theorem make_checkpoints_gap (n : Z) (l : list Z) (i : nat) (a b : Z) :
  _make_checkpoints_for n = inr l →
  l !! i = Some a →
  l !! S i = Some b →
  1 ≤ b - a ≤ Z.max 1 (n / 10).
Proof.
  destruct (decide (n ≤ 10)) as [Hle|Hgt].
  - rewrite make_checkpoints_small by done. intros [= <-].
    rewrite !list_lookup_fmap_Some.
    intros (j & -> & Hj) (k & -> & Hk).
    apply lookup_seq in Hj as [-> ?]. apply lookup_seq in Hk as [-> ?]. lia.
  - destruct (make_checkpoints_large n ltac:(lia)) as (-> & Hs & Hm & Hms).
    intros Hl. apply (inj inr) in Hl. subst l.
    destruct (decide _) as [Heq|Hne].
    + intros [-> ?]%lookup_multiples [-> ?]%lookup_multiples. lia.
    + rewrite !lookup_app_Some, length_fmap, length_seq.
      intros [Ha|[? Ha]] [Hb|[? Hb]].
      * apply lookup_multiples in Ha as [-> ?].
        apply lookup_multiples in Hb as [-> ?]. lia.
      * apply lookup_multiples in Ha as [-> ?].
        apply list_lookup_singleton_Some in Hb as [? <-]. 
        replace i with (Z.to_nat ((n - 1) / (n / 10))) by lia. lia.
      * apply lookup_multiples in Hb as [_ ?]. lia.
      * apply list_lookup_singleton_Some in Ha as [? _]. 
        apply list_lookup_singleton_Some in Hb as [? _]. lia.
Qed.

Lemma make_checkpoints_gap_witness : 1 ≤ 24 - 22 ≤ Z.max 1 (25 / 10).
Proof.
  apply (make_checkpoints_gap 25
           [0; 2; 4; 6; 8; 10; 12; 14; 16; 18; 20; 22; 24] 11 22 24);
    reflexivity.
Defined.

(** ** [optimise_scale]: outcomes and optimality *)

Lemma Qcsquare_nonneg (a : Qc) : (0 ≤ a * a)%Qc.
Proof.
  destruct (Qclt_le_dec a 0) as [Hneg|Hpos].
  - assert (Ha : (0 ≤ - a)%Qc).
    { apply Qclt_le_weak in Hneg. apply Qcopp_le_compat in Hneg.
      by replace (- 0)%Qc with 0%Qc in Hneg by ring. }
    pose proof (Qcmult_le_compat_r 0 (- a) (- a) Ha Ha) as H.
    by replace (0 * - a)%Qc with 0%Qc in H by ring;
       replace (- a * - a)%Qc with (a * a)%Qc in H by ring.
  - pose proof (Qcmult_le_compat_r 0 a a Hpos Hpos) as H.
    by replace (0 * a)%Qc with 0%Qc in H by ring.
Qed.

Lemma Qcplus_nonneg (a b : Qc) : (0 ≤ a → 0 ≤ b → 0 ≤ a + b)%Qc.
Proof.
  intros Ha Hb. pose proof (Qcplus_le_compat 0 a 0 b Ha Hb) as H.
  by replace (0 + 0)%Qc with 0%Qc in H by ring.
Qed.

Lemma Qcplus_nonneg_zero (a b : Qc) :
  (0 ≤ a)%Qc → (0 ≤ b)%Qc → (a + b = 0)%Qc → a = 0%Qc ∧ b = 0%Qc.
Proof.
  intros Ha Hb Hsum.
  assert (Ha0 : a = 0%Qc).
  { apply Qcle_antisym; [|done].
    apply (Qcplus_le_mono_r _ _ b). rewrite Hsum.
    by apply (Qcplus_le_mono_l 0 b 0) in Hb;
       replace (0 + 0)%Qc with 0%Qc in Hb by ring. }
  split; [done|]. rewrite Ha0 in Hsum.
  by replace (0 + b)%Qc with b in Hsum by ring.
Qed.

Lemma inner_cons (a b : Qc) (l k : Tensor1) :
  inner (a :: l) (b :: k) = (a * b + inner l k)%Qc.
Proof. reflexivity. Qed.

Lemma inner_self_nonneg (φ : Tensor1) : (0 ≤ inner φ φ)%Qc.
Proof.
  induction φ as [|v φ IH]; [done|]. rewrite inner_cons.
  apply Qcplus_nonneg; [apply Qcsquare_nonneg|done].
Qed.

(** [⟨φ,φ⟩] vanishes exactly when every entry of [φ] does. *)
Lemma inner_self_zero (φ : Tensor1) :
  inner φ φ = 0%Qc ↔ Forall (λ v, v = 0%Qc) φ.
Proof.
  induction φ as [|v φ IH]; [done|]. rewrite inner_cons, Forall_cons. split.
  - intros [Hv Hφ]%Qcplus_nonneg_zero;
      [|apply Qcsquare_nonneg|apply inner_self_nonneg].
    split; [|by apply IH].
    by destruct (Qcmult_integral _ _ Hv).
  - intros [-> Hφ]. apply IH in Hφ. rewrite Hφ. ring.
Qed.

Lemma inner_scale_r (k : Qc) (φ φ' : Tensor1) :
  inner φ ((λ v, k * v)%Qc <$> φ') = (k * inner φ φ')%Qc.
Proof.
  revert φ'. induction φ as [|a φ IH]; intros [|b φ']; cbn [fmap list_fmap];
    try (unfold inner; cbn; ring).
  change (inner (a :: φ) (k * b :: ((λ v, k * v) <$> φ'))%Qc
          = (k * inner (a :: φ) (b :: φ'))%Qc).
  rewrite !inner_cons, IH. ring.
Qed.




Lemma shifted_norm_expand (ψx φ : Tensor1) (c : Qc) :
  length ψx = length φ →
  shifted_norm ψx φ c
  = (inner ψx ψx + (c + c) * inner φ ψx + c * c * inner φ φ)%Qc.
Proof.
  unfold shifted_norm. revert φ.
  induction ψx as [|p ψx IH]; intros [|f φ] Hlen; try done.
  { unfold inner. cbn. ring. }
  cbn [zip_with]. rewrite !inner_cons, IH by (cbn in Hlen; lia). ring.
Qed.



(** ** [CombiningState.forward]: any number of classes, moduli, targets *)

Lemma argmax_raises (row : list Qc) (e : exn) :
  argmax row = inl e → row = [] ∧ e = IndexError.
Proof. destruct row; [by intros [= <-]|done]. Qed.

Lemma argmax_range (row : list Qc) (k : Z) :
  argmax row = inr k → 0 ≤ k < Z.of_nat (length row).
Proof.
  intros (m & Hk & Hm & _)%argmax_first_maximum.
  apply lookup_lt_Some in Hm. lia.
Qed.

Lemma torch_max_indices_nonempty (t : Tensor2) :
  Forall (λ row, row ≠ []) t →
  ∃ classes,
    torch_max_indices t = inr classes
    ∧ Forall2 (λ row k, argmax row = inr k) t classes.
Proof.
  induction 1 as [|row t Hrow _ (classes & Hcl & Hall)].
  - by exists [].
  - destruct (argmax row) as [e|k] eqn:Hk.
    { by apply argmax_raises in Hk as [? _]. }
    exists (k :: classes). split; [|by constructor].
    unfold torch_max_indices in *. cbn [mapM]. rewrite Hk. cbn.
    by rewrite Hcl.
Qed.

Lemma torch_max_indices_empty_row (t : Tensor2) :
  Exists (λ row, row = []) t → torch_max_indices t = inl IndexError.
Proof.
  unfold torch_max_indices.
  induction t as [|row t IH]; intros Hex; [by apply Exists_nil in Hex|].
  cbn [mapM]. destruct (argmax row) as [e|k] eqn:Hk.
  { by apply argmax_raises in Hk as [_ ->]. }
  apply Exists_cons in Hex as [->|Hex]; [done|].
  cbn. by rewrite IH.
Qed.



(** Three classes, the last one the largest: the amplitude [2] comes out
    as [-6]. *)
Example forward_three_classes :
  forward {| _amplitude := λ _, [q 2 1];
             _phase := λ _, [[q 1 10; q 2 10; q 7 10]] |} [[1; -1]%Qc]
  = inr [q (-6) 1].
Proof. vm_compute. qc_entries. Qed.

Lemma Qcabs_1 : Qcabs 1 = 1%Qc.
Proof. by apply Qcabs_pos. Qed.

Lemma Qcabs_m1 : Qcabs (- 1) = 1%Qc.
Proof. rewrite Qcabs_opp. apply Qcabs_1. Qed.

(** X8. With two classes the evaluator never changes a modulus: the
    absolute values of [forward]'s result are those of the amplitude
    network. *)
Theorem forward_modulus (self : CombiningState) (x : Tensor2) :
  length (_amplitude self x) = length x →
  length (_phase self x) = length x →
  Forall (λ row, length row = 2%nat) (_phase self x) →
  ∃ out, forward self x = inr out
         ∧ torch_abs out = torch_abs (_amplitude self x).
Proof.
  intros HA HP Htwo.
  destruct (forward_entries self x HA HP Htwo) as (out & Hout & Hlen & Hent).
  exists out. split; [done|]. unfold torch_abs.
  apply list_eq. intros i. rewrite !list_lookup_fmap.
  destruct (_amplitude self x !! i) as [a|] eqn:Ha.
  - destruct (lookup_lt_is_Some_2 (_phase self x) i) as [row Hrow].
    { apply lookup_lt_Some in Ha. lia. }
    pose proof (proj1 (Forall_lookup _ _) Htwo i row Hrow) as Hrow2.
    apply two_classes in Hrow2 as (lo & hi & ->).
    pose proof (argmax_two lo hi) as Harg.
    destruct (decide (lo < hi)%Qc).
    + rewrite (Hent i a _ 1 Ha Hrow Harg). cbn.
      change (1 - 2 * 1) with (-1).
      by rewrite Qc_of_Z_m1, Qcabs_Qcmult, Qcabs_m1, Qcmult_1_r.
    + rewrite (Hent i a _ 0 Ha Hrow Harg). cbn.
      change (1 - 2 * 0) with 1.
      by rewrite Qc_of_Z_1, Qcmult_1_r.
  - rewrite lookup_ge_None_2; [done|].
    apply lookup_ge_None_1 in Ha. lia.
Qed.

Lemma forward_modulus_witness :
  ∃ out, forward example_state [[1; -1]%Qc] = inr out
         ∧ torch_abs out = torch_abs (_amplitude example_state [[1; -1]%Qc]).
Proof.
  apply (forward_modulus example_state [[1; -1]%Qc]); try reflexivity.
  repeat constructor.
Defined.

Lemma decode_targets (φ : Tensor1) :
  zip_with Qcmult (torch_abs φ)
    (Qc_of_Z <$> ((λ k, 1 - 2 * k) <$> torch_where_ge0 φ)) = φ.
Proof.
  unfold torch_abs, torch_where_ge0.
  induction φ as [|v φ IH]; [done|]. cbn. rewrite IH. f_equal.
  destruct (decide (0 ≤ v)%Qc) as [Hge|Hlt].
  - change (1 - 2 * 0) with 1. rewrite Qc_of_Z_1, Qcabs_pos by done. ring.
  - apply Qcnot_le_lt, Qclt_le_weak in Hlt.
    change (1 - 2 * 1) with (-1). rewrite Qc_of_Z_m1, Qcabs_neg by done.
    ring.
Qed.

(** X9. The targets [generate_train_data] derives and the evaluator are
    inverse to each other: a pair of networks that meets the targets of the
    values [φ] exactly (amplitudes [|φ|], argmax of the logits equal to the
    sign classes) evaluates to [φ] again. *)
Theorem forward_decodes_targets (self : CombiningState) (x : Tensor2)
    (φ : Tensor1) :
  _amplitude self x = torch_abs φ →
  torch_max_indices (_phase self x) = inr (torch_where_ge0 φ) →
  forward self x = inr φ.
Proof.
  intros HA HP. unfold forward. rewrite HA, HP. cbn.
  unfold broadcast2.
  rewrite decide_True
    by (unfold torch_abs, torch_where_ge0; by rewrite !length_fmap).
  unfold mret, result_ret. f_equal. apply decode_targets.
Qed.

Lemma forward_decodes_targets_witness :
  forward {| _amplitude := toy_amplitude; _phase := toy_phase |} toy_samples
  = inr [q 2 1; q (-2) 1].
Proof.
  apply (forward_decodes_targets
           {| _amplitude := toy_amplitude; _phase := toy_phase |}
           toy_samples [q 2 1; q (-2) 1]).
  - vm_compute. qc_entries.
  - vm_compute. reflexivity.
Defined.

(** ** The driver: what is emitted, what is written *)

Section Emits.
Context {B : Backend} (E : Engine).
Implicit Types P : Event → Prop.

Lemma emits_mret P {A} (a : A) : emits P (mret a).
Proof. intros w. exists []. by rewrite app_nil_r. Qed.

Lemma emits_lift P {A} (r : result A) : emits P (lift r).
Proof. intros w. exists []. by rewrite app_nil_r. Qed.

Lemma emits_bind P {A C} (m : M A) (f : A → M C) :
  emits P m → (∀ a, emits P (f a)) → emits P (m ≫= f).
Proof.
  intros Hm Hf w. rewrite bind_run. destruct (Hm w) as (r1 & Hr1 & HP1).
  destruct (m w) as [w' [e|a]]; [by exists r1|].
  destruct (Hf a w') as (r2 & Hr2 & HP2). exists (r1 ++ r2).
  cbn in Hr1. rewrite Hr2, Hr1, app_assoc. split; [done|].
  by apply Forall_app.
Qed.

(** What [f] appends after [m] satisfies [P], whatever [m] appended. *)
Lemma emits_after P {A C} (m : M A) (f : A → M C) (w : World) :
  (∀ a, emits P (f a)) →
  ∃ rest, trace ((m ≫= f) w).1 = trace (m w).1 ++ rest ∧ Forall P rest.
Proof.
  intros Hf. rewrite bind_run. destruct (m w) as [w' [e|a]].
  - exists []. by rewrite app_nil_r.
  - apply Hf.
Qed.

Lemma emits_one P (e : Event) {A} (m : M A) :
  P e → (∀ w, trace (m w).1 = trace w ++ [e]) → emits P m.
Proof. intros He Hm w. exists [e]. split; [apply Hm|by constructor]. Qed.

Lemma emits_log P msg : P (EvLog msg) → emits P (log msg).
Proof. intros HP. by apply (emits_one P (EvLog msg)). Qed.

Lemma emits_save P st f : P (EvSave f st) → emits P (save st f).
Proof. intros HP. by apply (emits_one P (EvSave f st)). Qed.

Lemma emits_load P f : (∀ found, P (EvLoad f found)) → emits P (load f).
Proof. intros HP w. exists [EvLoad f (files w !! f)]. by split; [|constructor]. Qed.

Lemma emits_c_sample_some P f poly opts shape :
  (∀ found, P (EvSampleSome f found poly opts)) →
  emits P (c_sample_some E f poly opts shape).
Proof.
  intros HP w. eexists. split; [apply trace_c_sample_some|].
  by constructor.
Qed.

Lemma emits_c_sample_difference P f1 f2 poly opts shape :
  (∀ found1 found2, P (EvSampleDifference f1 f2 found1 found2 poly opts)) →
  emits P (c_sample_difference E f1 f2 poly opts shape).
Proof.
  intros HP w. eexists. split; [apply trace_c_sample_difference|].
  by constructor.
Qed.

Lemma emits_c_merge P a b : P (EvMerge a b) → emits P (c_merge E a b).
Proof. intros HP. by apply (emits_one P (EvMerge a b)). Qed.

Lemma emits_train_amplitude P ψ ds cfg gpu :
  P (EvTrainAmplitude ds gpu) → emits P (train_amplitude E ψ ds cfg gpu).
Proof.
  intros HP. apply (emits_one P (EvTrainAmplitude ds gpu)); [done|].
  intros w. unfold train_amplitude. by destruct fit_amplitude.
Qed.

Lemma emits_train_phase P ψ ds cfg gpu :
  P (EvTrainPhase ds gpu) → emits P (train_phase E ψ ds cfg gpu).
Proof.
  intros HP. apply (emits_one P (EvTrainPhase ds gpu)); [done|].
  intros w. unfold train_phase. by destruct fit_phase.
Qed.

Lemma untouched_mret f {A} (a : A) : untouched f (mret a).
Proof. done. Qed.

Lemma untouched_lift f {A} (r : result A) : untouched f (lift r).
Proof. done. Qed.

Lemma untouched_bind f {A C} (m : M A) (k : A → M C) :
  untouched f m → (∀ a, untouched f (k a)) → untouched f (m ≫= k).
Proof.
  intros Hm Hk w. rewrite bind_run. specialize (Hm w).
  destruct (m w) as [w' [e|a]]; [done|]. by rewrite Hk.
Qed.

Lemma untouched_after f {A C} (m : M A) (k : A → M C) (w : World) :
  (∀ a, untouched f (k a)) →
  files ((m ≫= k) w).1 !! f = files (m w).1 !! f.
Proof.
  intros Hk. rewrite bind_run. destruct (m w) as [w' [e|a]]; [done|].
  apply Hk.
Qed.

Lemma untouched_log f msg : untouched f (log msg).
Proof. done. Qed.

Lemma untouched_save f st g : f ≠ g → untouched f (save st g).
Proof. intros Hne w. cbn. by rewrite lookup_insert_ne. Qed.

Lemma untouched_load f g : untouched f (load g).
Proof. done. Qed.

Lemma untouched_c_sample_some f g poly opts shape :
  untouched f (c_sample_some E g poly opts shape).
Proof.
  intros w. unfold c_sample_some. cbn.
  destruct (files w !! g); [by destruct sample_some|done].
Qed.

Lemma untouched_c_sample_difference f g1 g2 poly opts shape :
  untouched f (c_sample_difference E g1 g2 poly opts shape).
Proof.
  intros w. unfold c_sample_difference. cbn.
  destruct (files w !! g1); [destruct (files w !! g2)|];
    [by destruct sample_difference|done..].
Qed.

Lemma untouched_c_merge f a b : untouched f (c_merge E a b).
Proof. done. Qed.

Lemma untouched_train_amplitude f ψ ds cfg gpu :
  untouched f (train_amplitude E ψ ds cfg gpu).
Proof. intros w. unfold train_amplitude. by destruct fit_amplitude. Qed.

Lemma untouched_train_phase f ψ ds cfg gpu :
  untouched f (train_phase E ψ ds cfg gpu).
Proof. intros w. unfold train_phase. by destruct fit_phase. Qed.

End Emits.

(** Settles a side condition on one event by evaluating the predicate. *)
Ltac event_ok := intros; cbn; repeat split; first [done | discriminate].

Ltac emits_step :=
  match goal with
  | |- emits _ (_ ≫= _) => apply emits_bind; [|intros]
  | |- emits _ (let '(_, _) := ?p in _) => destruct p
  | |- emits _ (if ?b then _ else _) => destruct b
  | |- emits _ (mret _) => apply emits_mret
  | |- emits _ (lift _) => apply emits_lift
  | |- emits _ (log _) => apply emits_log; event_ok
  | |- emits _ (save _ _) => apply emits_save; event_ok
  | |- emits _ (load _) => apply emits_load; event_ok
  | |- emits _ (c_sample_some _ _ _ _ _) =>
      apply emits_c_sample_some; event_ok
  | |- emits _ (c_sample_difference _ _ _ _ _ _) =>
      apply emits_c_sample_difference; event_ok
  | |- emits _ (c_merge _ _ _) => apply emits_c_merge; event_ok
  | |- emits _ (train_amplitude _ _ _ _ _) =>
      apply emits_train_amplitude; event_ok
  | |- emits _ (train_phase _ _ _ _ _) =>
      apply emits_train_phase; event_ok
  end.
Ltac solve_emits := intros; repeat emits_step.

Ltac untouched_step :=
  match goal with
  | |- untouched _ (_ ≫= _) => apply untouched_bind; [|intros]
  | |- untouched _ (let '(_, _) := ?p in _) => destruct p
  | |- untouched _ (if ?b then _ else _) => destruct b
  | |- untouched _ (mret _) => apply untouched_mret
  | |- untouched _ (lift _) => apply untouched_lift
  | |- untouched _ (log _) => apply untouched_log
  | |- untouched _ (save _ _) => apply untouched_save; first [done|congruence]
  | |- untouched _ (load _) => apply untouched_load
  | |- untouched _ (c_sample_some _ _ _ _ _) =>
      apply untouched_c_sample_some
  | |- untouched _ (c_sample_difference _ _ _ _ _ _) =>
      apply untouched_c_sample_difference
  | |- untouched _ (c_merge _ _ _) => apply untouched_c_merge
  | |- untouched _ (train_amplitude _ _ _ _ _) =>
      apply untouched_train_amplitude
  | |- untouched _ (train_phase _ _ _ _ _) =>
      apply untouched_train_phase
  end.
Ltac solve_untouched := intros; repeat untouched_step.

Section Steps.
Context {B : Backend} (E : Engine).

Lemma untouched_swo_difference f ψ samples ta result config :
  f ≠ tempfile_name_current →
  untouched f (swo_difference E ψ samples ta result config).
Proof.
  intros Hf. destruct ψ.
  unfold swo_difference, swo_retrain, generate_more_data. cbv zeta.
  solve_untouched.
Qed.

Lemma untouched_swo_first f ψ config :
  f ≠ tempfile_name → untouched f (swo_first E ψ config).
Proof.
  intros Hf. destruct ψ.
  unfold swo_first, generate_train_data. cbv zeta. solve_untouched.
Qed.

Lemma swo_first_unfold ψ_amplitude ψ_phase config (w : World) :
  swo_first E (ψ_amplitude, ψ_phase) config w
  = (log "Generating the training data set...";;
     '(samples, target_amplitudes, target_phases, result) ←
       generate_train_data E tempfile_name config;
     log "Training on {} spin configurations...";;
     ds ← lift (TensorDataset samples target_amplitudes);
     ψ_amplitude' ←
       train_amplitude E ψ_amplitude ds (amplitude config) false;
     ds ← lift (TensorDataset samples target_phases);
     ψ_phase' ← train_phase E ψ_phase ds (phase config) false;
     mret (ψ_amplitude', ψ_phase', samples, target_amplitudes, result))
      (save {| _amplitude := ψ_amplitude; _phase := ψ_phase |}
         tempfile_name w).1.
Proof. reflexivity. Qed.

(** X10. Whatever happens in a [swo_step], failure included, afterwards
    the old checkpoint holds the networks the step started with, not the
    trained ones, and no file other than the two checkpoints has
    changed. *)
Theorem swo_step_files (ψ_amplitude : AmplitudeNet) (ψ_phase : PhaseNet)
    (config : Config) (w : World) :
  files (swo_step E (ψ_amplitude, ψ_phase) config w).1 !! tempfile_name
  = Some {| _amplitude := ψ_amplitude; _phase := ψ_phase |}
  ∧ ∀ f, f ≠ tempfile_name → f ≠ tempfile_name_current →
      files (swo_step E (ψ_amplitude, ψ_phase) config w).1 !! f
      = files w !! f.
Proof.
  split.
  - unfold swo_step. rewrite untouched_after.
    2:{ intros [[[[ψa ψp] samples] ta] result].
        destruct (difference_sampling config); [|apply untouched_mret].
        apply untouched_swo_difference. by intros ?%symmetry%checkpoint_names_differ. }
    rewrite swo_first_unfold.
    match goal with
    | |- files (?m ?w0).1 !! _ = _ =>
        assert (Hrest : untouched tempfile_name m)
    end.
    { unfold generate_train_data. cbv zeta. solve_untouched. }
    rewrite Hrest. cbn. apply lookup_insert_eq.
  - intros f Hold Hcur. unfold swo_step.
    rewrite untouched_after.
    2:{ intros [[[[ψa ψp] samples] ta] result].
        destruct (difference_sampling config); [|apply untouched_mret].
        by apply untouched_swo_difference. }
    by apply untouched_swo_first.
Qed.

Lemma emits_first_pass ψ config :
  emits first_pass_event (swo_first E ψ config).
Proof.
  destruct ψ. unfold swo_first, generate_train_data. cbv zeta.
  solve_emits.
Qed.

(** X11. With [difference_sampling] off, a [swo_step] is its first pass
    alone: it logs, writes the old checkpoint, samples, and trains off the
    GPU; there is no difference sampling, no merge, no load, and the
    current checkpoint is not written. *)
Theorem swo_step_single_pass (ψ : AmplitudeNet * PhaseNet)
    (config : Config) (w : World) :
  difference_sampling config = false →
  ∃ rest,
    trace (swo_step E ψ config w).1 = trace w ++ rest
    ∧ Forall first_pass_event rest
    ∧ files (swo_step E ψ config w).1 !! tempfile_name_current
      = files w !! tempfile_name_current.
Proof.
  intros Hoff.
  assert (Hstep : ∀ w, swo_step E ψ config w
    = (swo_first E ψ config ≫= λ '(ψa, ψp, _, _, _), mret (ψa, ψp)) w).
  { intros w0. unfold swo_step. rewrite !bind_run.
    destruct (swo_first E ψ config w0)
      as [w1 [e|[[[[ψa ψp] samples] ta] result]]]; [done|].
    by rewrite Hoff. }
  rewrite Hstep.
  destruct (emits_bind first_pass_event (swo_first E ψ config)
              (λ '(ψa, ψp, _, _, _), mret (ψa, ψp))
              (emits_first_pass ψ config)
              ltac:(intros [[[[? ?] ?] ?] ?]; apply emits_mret) w)
    as (rest & Hrest & HP).
  exists rest. split; [done|]. split; [done|].
  rewrite untouched_after
    by (intros [[[[? ?] ?] ?] ?]; apply untouched_mret).
  apply untouched_swo_first, checkpoint_names_differ.
Qed.

Lemma swo_first_keeps_old ψ_amplitude ψ_phase config (w : World) :
  files (swo_first E (ψ_amplitude, ψ_phase) config w).1 !! tempfile_name
  = Some {| _amplitude := ψ_amplitude; _phase := ψ_phase |}.
Proof.
  rewrite swo_first_unfold.
  match goal with
  | |- files (?m ?w0).1 !! _ = _ =>
      assert (Hrest : untouched tempfile_name m)
  end.
  { unfold generate_train_data. cbv zeta. solve_untouched. }
  rewrite Hrest. cbn. apply lookup_insert_eq.
Qed.

Lemma swo_difference_trace ψ_amplitude ψ_phase samples ta result config
    (w : World) (s : Qc) :
  optimise_scale ψ_amplitude (samples, ta) = inr s →
  ∃ opts rest,
    trace (swo_difference E (ψ_amplitude, ψ_phase) samples ta result
             config w).1 =
    trace w ++
      [EvLog "Generating more data...";
       EvSave tempfile_name_current
         {| _amplitude := ψ_amplitude; _phase := ψ_phase |};
       EvLog "scale = {}";
       EvSampleDifference tempfile_name_current tempfile_name
         (Some {| _amplitude := ψ_amplitude; _phase := ψ_phase |})
         (files w !! tempfile_name)
         {| poly_hamiltonian := hamiltonian config;
            poly_roots := roots config;
            poly_scale := Some (Qcabs s) |} opts] ++ rest.
Proof.
  intros Hs. unfold swo_difference.
  rewrite (bind_returns (log _) _ w
             (emit (EvLog "Generating more data...") w) ()) by reflexivity.
  rewrite bind_lift, Hs.
  set (st := {| _amplitude := ψ_amplitude; _phase := ψ_phase |}).
  rewrite (bind_returns (save st tempfile_name_current) _ _
             (save st tempfile_name_current
                (emit (EvLog "Generating more data...") w)).1 ())
    by reflexivity.
  set (w2 := (save st tempfile_name_current
                (emit (EvLog "Generating more data...") w)).1).
  destruct (emits_after (λ _, True)
              (generate_more_data E tempfile_name_current tempfile_name
                 (Qcabs s) config)
              (λ extra, swo_retrain E (ψ_amplitude, ψ_phase) result extra
                          config) w2) as (rest2 & Hrest2 & _).
  { intros extra. unfold swo_retrain. cbv zeta. solve_emits. }
  rewrite Hrest2. unfold generate_more_data. cbv zeta.
  rewrite (bind_returns (log _) _ w2 (emit (EvLog "scale = {}") w2) ())
    by reflexivity.
  match goal with
  | |- context [trace ((?m ≫= ?k) ?w0).1] =>
      destruct (emits_after (λ _, True) m k w0) as (rest1 & Hrest1 & _);
        [solve_emits|]
  end.
  rewrite Hrest1, trace_c_sample_difference. subst w2. cbn.
  rewrite lookup_insert_eq,
    (lookup_insert_ne _ _ _ _ checkpoint_names_differ).
  eexists _, (rest1 ++ rest2). rewrite <- !app_assoc. reflexivity.
Qed.

(** X12. When the first pass of a [swo_step] succeeds and a scale is
    found, the difference sampler is called on two checkpoints that both
    exist: the new one holds the networks as trained in the first pass, the
    old one the networks the step started with. *)
Theorem swo_step_difference_checkpoints
    (ψ_amplitude ψ1_amplitude : AmplitudeNet) (ψ_phase ψ1_phase : PhaseNet)
    (config : Config) (w w1 : World) (samples : Tensor2)
    (target_amplitudes : Tensor1) (result : Ensemble) (s : Qc) :
  difference_sampling config = true →
  swo_first E (ψ_amplitude, ψ_phase) config w
  = (w1, inr (ψ1_amplitude, ψ1_phase, samples, target_amplitudes, result)) →
  optimise_scale ψ1_amplitude (samples, target_amplitudes) = inr s →
  ∃ opts rest,
    trace (swo_step E (ψ_amplitude, ψ_phase) config w).1 =
    trace w1 ++
      [EvLog "Generating more data...";
       EvSave tempfile_name_current
         {| _amplitude := ψ1_amplitude; _phase := ψ1_phase |};
       EvLog "scale = {}";
       EvSampleDifference tempfile_name_current tempfile_name
         (Some {| _amplitude := ψ1_amplitude; _phase := ψ1_phase |})
         (Some {| _amplitude := ψ_amplitude; _phase := ψ_phase |})
         {| poly_hamiltonian := hamiltonian config;
            poly_roots := roots config;
            poly_scale := Some (Qcabs s) |} opts] ++ rest.
Proof.
  intros Hon Hfirst Hs.
  pose proof (swo_first_keeps_old ψ_amplitude ψ_phase config w) as Hold.
  rewrite Hfirst in Hold. cbn in Hold.
  unfold swo_step. rewrite (bind_returns _ _ _ _ _ Hfirst), Hon.
  destruct (swo_difference_trace ψ1_amplitude ψ1_phase samples
              target_amplitudes result config w1 s Hs)
    as (opts & rest & Htrace).
  exists opts, rest. by rewrite Htrace, Hold.
Qed.

Lemma py_range_empty (n : Z) : n ≤ 0 → py_range 0 n 1 = inr [].
Proof.
  intros Hn. unfold py_range, range_len.
  rewrite decide_False by lia. by rewrite decide_False by lia.
Qed.

(** X13. With a number of epochs that is zero or negative, [main] does
    nothing at all: nothing is logged, written or sampled. *)
Theorem main_no_epochs (ψ_amplitude : AmplitudeNet) (ψ_phase : PhaseNet)
    (options : Config) (w : World) :
  epochs options ≤ 0 →
  main E ψ_amplitude ψ_phase options w = (w, inr ()).
Proof.
  intros Hn. unfold main. by rewrite bind_lift, py_range_empty.
Qed.

Lemma count_events_app (p : Event → bool) (l1 l2 : list Event) :
  count_events p (l1 ++ l2) = (count_events p l1 + count_events p l2)%nat.
Proof. unfold count_events. by rewrite List.filter_app, length_app. Qed.

Lemma count_events_inside (l : list Event) :
  Forall inside_step l →
  count_events is_separator l = 0%nat
  ∧ count_events (is_save tempfile_name) l = 0%nat.
Proof.
  unfold count_events.
  induction 1 as [|e l [Hsep Hsave] _ [IH1 IH2]]; [done|].
  cbn. by rewrite Hsep, Hsave.
Qed.

Lemma swo_step_events ψ_amplitude ψ_phase config (w : World) :
  ∃ rest,
    trace (swo_step E (ψ_amplitude, ψ_phase) config w).1 =
    trace w
      ++ EvSave tempfile_name
           {| _amplitude := ψ_amplitude; _phase := ψ_phase |} :: rest
    ∧ Forall inside_step rest.
Proof.
  unfold swo_step.
  match goal with
  | |- ∃ _, trace ((?m ≫= ?k) ?w0).1 = _ ∧ _ =>
      destruct (emits_after inside_step m k w0) as (rest2 & -> & HP2)
  end.
  { intros [[[[ψa ψp] samples] ta] result].
    destruct (difference_sampling config); [|apply emits_mret].
    unfold swo_difference, swo_retrain, generate_more_data. cbv zeta.
    solve_emits. }
  rewrite swo_first_unfold.
  match goal with
  | |- ∃ _, trace (?m ?w0).1 ++ _ = _ ∧ _ =>
      assert (Hrest : emits inside_step m)
  end.
  { unfold generate_train_data. cbv zeta. solve_emits. }
  destruct (Hrest (save {| _amplitude := ψ_amplitude; _phase := ψ_phase |}
                     tempfile_name w).1) as (rest1 & -> & HP1).
  exists (rest1 ++ rest2). cbn. rewrite <- !app_assoc. cbn.
  split; [done|]. by apply Forall_app.
Qed.

Lemma count_iteration (st : CombiningState) (rest : list Event) :
  Forall inside_step rest →
  count_events is_separator
    ([EvLog "----------{}----------"; EvSave tempfile_name st] ++ rest)
  = 1%nat
  ∧ count_events (is_save tempfile_name)
      ([EvLog "----------{}----------"; EvSave tempfile_name st] ++ rest)
    = 1%nat.
Proof.
  intros [Hsep Hsave]%count_events_inside.
  rewrite !count_events_app, Hsep, Hsave. by split.
Qed.

Lemma main_loop_counts ψ options (l : list Z) (w : World) :
  ∃ rest,
    trace (main_loop E ψ options l w).1 = trace w ++ rest
    ∧ count_events is_separator rest
      = count_events (is_save tempfile_name) rest
    ∧ (count_events is_separator rest ≤ length l)%nat
    ∧ (∀ ψ', (main_loop E ψ options l w).2 = inr ψ' →
         count_events is_separator rest = length l).
Proof.
  revert ψ w. induction l as [|i l IH]; intros ψ w.
  { exists []. rewrite app_nil_r. by cbn. }
  cbn [main_loop].
  rewrite (bind_returns (log _) _ w
             (emit (EvLog "----------{}----------") w) ()) by reflexivity.
  rewrite bind_run. destruct ψ as [ψ_amplitude ψ_phase].
  destruct (swo_step_events ψ_amplitude ψ_phase options
              (emit (EvLog "----------{}----------") w))
    as (rest1 & Hrest1 & Hinside).
  destruct (count_iteration
              {| _amplitude := ψ_amplitude; _phase := ψ_phase |} rest1
              Hinside) as [Hsep Hsave].
  destruct (swo_step E (ψ_amplitude, ψ_phase) options _)
    as [w1 [e|ψ']]; cbn [fst snd] in *.
  - exists ([EvLog "----------{}----------";
             EvSave tempfile_name
               {| _amplitude := ψ_amplitude; _phase := ψ_phase |}]
            ++ rest1). split.
    { rewrite Hrest1. cbn [emit trace]. by rewrite <- app_assoc. }
    rewrite Hsep, Hsave. split; [done|]. split; [cbn; lia|done].
  - destruct (IH ψ' w1) as (rest2 & Hrest2 & Heq & Hle & Hall).
    exists (([EvLog "----------{}----------";
              EvSave tempfile_name
                {| _amplitude := ψ_amplitude; _phase := ψ_phase |}]
             ++ rest1) ++ rest2). split.
    { rewrite Hrest2, Hrest1. cbn [emit trace].
      by rewrite <- !app_assoc. }
    rewrite !(count_events_app _ (_ ++ rest1) rest2), Hsep, Hsave, Heq.
    split; [done|]. rewrite <- Heq. split; [cbn; lia|].
    intros ψ'' Hok. rewrite (Hall ψ'' Hok). done.
Qed.

(** X14. Every outer iteration [main] starts writes the old checkpoint
    exactly once; never more than [epochs] iterations are started, and a
    run that ends without an error has gone through all of them. *)
Theorem main_iterations (ψ_amplitude : AmplitudeNet) (ψ_phase : PhaseNet)
    (options : Config) (w : World) :
  ∃ rest,
    trace (main E ψ_amplitude ψ_phase options w).1 = trace w ++ rest
    ∧ count_events is_separator rest
      = count_events (is_save tempfile_name) rest
    ∧ (count_events is_separator rest ≤ Z.to_nat (epochs options))%nat
    ∧ ((main E ψ_amplitude ψ_phase options w).2 = inr () →
       count_events is_separator rest = Z.to_nat (epochs options)).
Proof.
  assert (Hrange : ∃ l, py_range 0 (epochs options) 1 = inr l
                        ∧ length l = Z.to_nat (epochs options)).
  { destruct (decide (0 ≤ epochs options)).
    - eexists. split; [by apply py_range_unit_step|].
      by rewrite length_fmap, length_seq.
    - exists []. split; [apply py_range_empty; lia|cbn; lia]. }
  destruct Hrange as (l & Hl & Hlen).
  unfold main. rewrite bind_lift, Hl, bind_run.
  destruct (main_loop_counts (ψ_amplitude, ψ_phase) options l w)
    as (rest & Hrest & Heq & Hle & Hall).
  exists rest.
  destruct (main_loop E (ψ_amplitude, ψ_phase) options l w)
    as [w' [e|ψ']]; cbn in *.
  - split; [done|]. split; [done|]. split; [lia|done].
  - split; [done|]. split; [done|]. split; [lia|].
    intros _. rewrite <- Hlen. by eapply Hall.
Qed.

(** X15. [switch_to_other_net] cannot return: it unpacks the four results
    of [generate_train_data] into three names. It writes its checkpoint and
    samples, then fails, with [ValueError] whenever the sampler succeeded,
    and it never gets to train. *)
Theorem switch_to_other_net_raises (φ ψ : AmplitudeNet * PhaseNet)
    (config : Config) (w : World) :
  ∃ e rest,
    (switch_to_other_net E φ ψ config w).2 = inl e
    ∧ trace (switch_to_other_net E φ ψ config w).1 = trace w ++ rest
    ∧ Forall no_training rest
    ∧ (∀ sampled g,
         sample_some E (rng w) {| _amplitude := ψ.1; _phase := ψ.2 |}
           {| poly_hamiltonian := hamiltonian config;
              poly_roots := roots config; poly_scale := None |}
           {| co_number_spins := number_spins config;
              co_magnetisation := magnetisation config;
              co_batch_size := 1024; co_steps := steps config |} (16, 1)
         = (inr sampled, g) →
         e = ValueError).
Proof.
  destruct φ as [φ_amplitude φ_phase], ψ as [ψ_amplitude ψ_phase].
  unfold switch_to_other_net.
  set (st := {| _amplitude := ψ_amplitude; _phase := ψ_phase |}).
  rewrite (bind_returns (save st ".swo.model.temp") _ w
             (save st ".swo.model.temp" w).1 ()) by reflexivity.
  set (w2 := emit (EvLog "Generating the training data set...")
               (save st ".swo.model.temp" w).1).
  rewrite (bind_returns (log _) _ _ w2 ()) by reflexivity.
  rewrite bind_run.
  assert (Hgtd : emits no_training
                   (generate_train_data E ".swo.model.temp" config)).
  { unfold generate_train_data. cbv zeta. solve_emits. }
  destruct (Hgtd w2) as (rest & Hrest & HP).
  destruct (generate_train_data E ".swo.model.temp" config w2)
    as [w3 [e|data]] eqn:Hrun; cbn in Hrest; cbv beta iota.
  - exists e. eexists. split; [done|]. cbn [fst snd].
    rewrite Hrest. subst w2. cbn.
    rewrite <- !app_assoc. split; [reflexivity|]. split.
    { repeat constructor. done. }
    intros sampled g Hsample. exfalso.
    unfold generate_train_data in Hrun. rewrite bind_run in Hrun.
    unfold c_sample_some in Hrun. cbn in Hrun.
    rewrite lookup_insert_eq in Hrun. cbn in Hsample.
    subst st. rewrite Hsample in Hrun.
    by destruct (to_tensors sampled) as [[? ?] ?].
  - exists ValueError. eexists. rewrite bind_lift. cbn [fst snd unpack_three raise].
    split; [done|]. rewrite Hrest. subst w2. cbn.
    rewrite <- !app_assoc. split; [reflexivity|]. split; [|done].
    repeat constructor. done.
Qed.

End Steps.

Lemma swo_step_single_pass_witness :
  ∃ rest,
    trace (swo_step (toy_engine toy_first toy_extra toy_amplitude)
             (toy_amplitude, toy_phase) (toy_config 2 false) toy_world).1
    = trace toy_world ++ rest
    ∧ Forall first_pass_event rest
    ∧ files (swo_step (toy_engine toy_first toy_extra toy_amplitude)
               (toy_amplitude, toy_phase) (toy_config 2 false)
               toy_world).1 !! tempfile_name_current
      = files toy_world !! tempfile_name_current.
Proof.
  apply (swo_step_single_pass
           (toy_engine toy_first toy_extra toy_amplitude)
           (toy_amplitude, toy_phase) (toy_config 2 false) toy_world).
  reflexivity.
Defined.

Lemma swo_step_difference_checkpoints_witness :
  ∃ opts rest,
    trace (swo_step (toy_engine toy_first toy_extra toy_amplitude)
             (toy_amplitude, toy_phase) (toy_config 2 true) toy_world).1 =
    trace (swo_first (toy_engine toy_first toy_extra toy_amplitude)
             (toy_amplitude, toy_phase) (toy_config 2 true) toy_world).1 ++
      [EvLog "Generating more data...";
       EvSave tempfile_name_current
         {| _amplitude := toy_amplitude; _phase := toy_phase |};
       EvLog "scale = {}";
       EvSampleDifference tempfile_name_current tempfile_name
         (Some {| _amplitude := toy_amplitude; _phase := toy_phase |})
         (Some {| _amplitude := toy_amplitude; _phase := toy_phase |})
         {| poly_hamiltonian := hamiltonian (toy_config 2 true);
            poly_roots := roots (toy_config 2 true);
            poly_scale := Some (Qcabs (q (-8) 5)) |} opts] ++ rest.
Proof.
  apply (swo_step_difference_checkpoints
           (toy_engine toy_first toy_extra toy_amplitude)
           toy_amplitude toy_amplitude toy_phase toy_phase
           (toy_config 2 true) toy_world
           (swo_first (toy_engine toy_first toy_extra toy_amplitude)
              (toy_amplitude, toy_phase) (toy_config 2 true) toy_world).1
           toy_samples (torch_abs (ens_values toy_first)) toy_first
           (q (-8) 5)).
  - reflexivity.
  - vm_compute. reflexivity.
  - vm_compute. qc_entries.
Defined.

Lemma main_no_epochs_witness :
  main (toy_engine toy_first toy_extra toy_amplitude) toy_amplitude
    toy_phase (toy_config 0 true) toy_world
  = (toy_world, inr ()).
Proof.
  apply (main_no_epochs (toy_engine toy_first toy_extra toy_amplitude)
           toy_amplitude toy_phase (toy_config 0 true) toy_world).
  reflexivity.
Defined.

(** ** [extend_using_symmetries] *)

Lemma mapM_inr {A C} (f : A → result C) (l : list A) (k : list C) :
  mapM f l = inr k ↔ Forall2 (λ a c, f a = inr c) l k.
Proof.
  split.
  - revert k. induction l as [|a l IH]; intros k; cbn.
    + intros [= <-]. constructor.
    + destruct (f a) as [e|c] eqn:Hc; [done|]. cbn.
      destruct (mapM f l) as [e|k'] eqn:Hk; [done|]. cbn.
      intros [= <-]. constructor; [done|by apply IH].
  - induction 1 as [|a c l k Hc _ IH]; [done|].
    cbn. rewrite Hc. cbn. by rewrite IH.
Qed.

Lemma mapM_inl {A C} (f : A → result C) (l : list A) (e : exn) :
  mapM f l = inl e → ∃ a, a ∈ l ∧ f a = inl e.
Proof.
  induction l as [|a l IH]; cbn; [done|].
  destruct (f a) as [e'|c] eqn:Hc; cbn.
  - intros [= ->]. exists a. split; [by left|done].
  - destruct (mapM f l) as [e'|k'] eqn:Hk; [|done]. cbn.
    intros [= ->]. destruct IH as (a' & ? & ?); [done|].
    exists a'. split; [by right|done].
Qed.

(** *** The order on keys *)

Lemma Qc_trichotomy (u v : Qc) :
  ¬ (u < v)%Qc → ¬ (v < u)%Qc → u = v.
Proof.
  intros H1%Qcnot_lt_le H2%Qcnot_lt_le. by apply Qcle_antisym.
Qed.

Lemma Qclt_irrefl (u : Qc) : ¬ (u < u)%Qc.
Proof. intros H. by apply Qclt_not_eq in H. Qed.

Lemma Qclt_asym (u v : Qc) : (u < v)%Qc → ¬ (v < u)%Qc.
Proof. intros H1 H2. exact (Qclt_irrefl u (Qclt_trans _ _ _ H1 H2)). Qed.

Lemma list_lt_cons (u v : Qc) (a b : list Qc) :
  list_lt (u :: a) (v :: b) = true
  ↔ (u < v)%Qc ∨ (u = v ∧ list_lt a b = true).
Proof.
  cbn. destruct (decide (u < v)%Qc) as [Hlt|Hnlt]; [by split; [left|]|].
  destruct (decide (v < u)%Qc) as [Hgt|Hngt].
  - split; [done|]. intros [?|[-> _]]; [done|]. by apply Qclt_irrefl in Hgt.
  - pose proof (Qc_trichotomy u v Hnlt Hngt) as ->.
    split; [by right|]. by intros [?|[_ ?]].
Qed.

Lemma list_lt_irrefl (a : list Qc) : list_lt a a = false.
Proof.
  induction a as [|u a IH]; [done|].
  apply not_true_is_false. rewrite list_lt_cons.
  intros [Hlt|[_ Hlt]]; [by apply Qclt_irrefl in Hlt|congruence].
Qed.

Lemma list_lt_trans (a b c : list Qc) :
  list_lt a b = true → list_lt b c = true → list_lt a c = true.
Proof.
  revert b c. induction a as [|u a IH]; intros [|v b] [|w c]; try done.
  rewrite !list_lt_cons.
  intros [Huv|[-> Hab]] [Hvw|[-> Hbc]].
  - left. by eapply Qclt_trans.
  - by left.
  - by left.
  - right. split; [done|]. by eapply IH.
Qed.

Lemma list_lt_connex (a b : list Qc) :
  list_lt a b = false → list_lt b a = false → a = b.
Proof.
  revert b. induction a as [|u a IH]; intros [|v b]; try done.
  intros Hab%not_true_iff_false Hba%not_true_iff_false.
  rewrite list_lt_cons in Hab, Hba.
  assert (u = v) as ->.
  { apply Qc_trichotomy; intros ?; [apply Hab|apply Hba]; by left. }
  f_equal. apply IH; apply not_true_is_false; intros ?;
    [apply Hab|apply Hba]; by right.
Qed.

Lemma list_lt_asym (a b : list Qc) :
  list_lt a b = true → list_lt b a = false.
Proof.
  intros Hab. apply not_true_is_false. intros Hba.
  pose proof (list_lt_trans _ _ _ Hab Hba) as Haa.
  by rewrite list_lt_irrefl in Haa.
Qed.

Lemma not_after_trans (a b c : list Qc) :
  not_after a b → not_after b c → not_after a c.
Proof.
  unfold not_after. intros Hab Hbc. apply not_true_is_false. intros Hca.
  destruct (list_lt a b) eqn:Hlt.
  - by rewrite (list_lt_trans _ _ _ Hca Hlt) in Hbc.
  - pose proof (list_lt_connex _ _ Hlt Hab) as ->. congruence.
Qed.

(** *** Sorting *)

Lemma elem_of_insert_by_key t l s :
  s ∈ insert_by_key t l ↔ s = t ∨ s ∈ l.
Proof.
  induction l as [|t' l IH]; cbn.
  - rewrite list_elem_of_singleton. split; [by left|].
    intros [?|Hs]; [done|]. by apply elem_of_nil in Hs.
  - destruct (list_lt t'.1 t.1); rewrite !elem_of_cons, ?IH; tauto.
Qed.

Lemma elem_of_py_sorted l s : s ∈ py_sorted l ↔ s ∈ l.
Proof.
  unfold py_sorted. induction l as [|t l IH]; cbn; [done|].
  rewrite elem_of_insert_by_key, IH, elem_of_cons. tauto.
Qed.

Lemma insert_by_key_sorted t l :
  StronglySorted (λ s s', not_after s.1 s'.1) l →
  StronglySorted (λ s s', not_after s.1 s'.1) (insert_by_key t l).
Proof.
  induction 1 as [|t' l Hl IH Hall]; cbn; [by repeat constructor|].
  destruct (list_lt t'.1 t.1) eqn:Hlt.
  - constructor; [done|]. apply Forall_forall. intros s Hs.
    apply elem_of_insert_by_key in Hs as [->|Hs].
    + by apply list_lt_asym.
    + by eapply Forall_forall in Hall.
  - constructor; [by constructor|]. constructor; [done|].
    eapply Forall_impl; [exact Hall|]. intros s Hs. cbn in *.
    by eapply not_after_trans.
Qed.

Lemma py_sorted_sorted l :
  StronglySorted (λ s s', not_after s.1 s'.1) (py_sorted l).
Proof.
  unfold py_sorted. induction l as [|t l IH]; cbn; [constructor|].
  by apply insert_by_key_sorted.
Qed.

(** *** Grouping *)

Lemma groupby_head (l : list (list Qc * Qc)) x ys groups :
  groupby l = (x, ys) :: groups → ∃ y l', l = (x, y) :: l'.
Proof.
  destruct l as [|[x0 y0] l]; [done|]. cbn.
  destruct (groupby l) as [|[x' ys'] gs].
  - intros [= <- _ _]. eauto.
  - destruct (decide (x0 = x')); intros [= <- _ _]; eauto.
Qed.

Lemma groupby_members (l : list (list Qc * Qc)) x ys :
  (x, ys) ∈ groupby l → ys ≠ [] ∧ ∀ y, y ∈ ys → (x, y) ∈ l.
Proof.
  revert x ys. induction l as [|[x0 y0] l IH]; intros x ys; cbn.
  { by intros ?%elem_of_nil. }
  destruct (groupby l) as [|[x' ys'] gs].
  - intros [= -> ->]%list_elem_of_singleton. split; [done|].
    intros y ->%list_elem_of_singleton. by left.
  - assert (Hhead : (x', ys') ∈ (x', ys') :: gs) by by left.
    destruct (decide (x0 = x')) as [->|Hne].
    + intros [[= -> ->]|Hin]%elem_of_cons.
      * split; [done|]. intros y [->|Hy]%elem_of_cons; [by left|].
        right. by apply (IH x' ys').
      * destruct (IH x ys) as [? Hall]; [by right|].
        split; [done|]. intros y Hy. right. by apply Hall.
    + intros [[= -> ->]|Hin]%elem_of_cons.
      * split; [done|]. intros y ->%list_elem_of_singleton. by left.
      * destruct (IH x ys Hin) as [? Hall].
        split; [done|]. intros y Hy. right. by apply Hall.
Qed.

Lemma groupby_keys (l : list (list Qc * Qc)) x y :
  (x, y) ∈ l → ∃ ys, (x, ys) ∈ groupby l.
Proof.
  induction l as [|[x0 y0] l IH]; [by intros ?%elem_of_nil|].
  cbn. intros [[= -> ->]|Hin]%elem_of_cons.
  - destruct (groupby l) as [|[x' ys'] gs]; [|destruct (decide (x0 = x'))];
      eexists; by left.
  - destruct (IH Hin) as (ys & Hys).
    destruct (groupby l) as [|[x' ys'] gs]; [by apply elem_of_nil in Hys|].
    destruct (decide (x0 = x')) as [->|Hne].
    + apply elem_of_cons in Hys as [[= -> ->]|Hys].
      * eexists. by left.
      * exists ys. by right.
    + exists ys. by right.
Qed.

Lemma groupby_sorted (l : list (list Qc * Qc)) :
  StronglySorted (λ s s', not_after s.1 s'.1) l →
  StronglySorted (λ a b, list_lt a b = true) (fst <$> groupby l).
Proof.
  induction 1 as [|[x0 y0] l Hl IH Hall]; [constructor|]. cbn.
  destruct (groupby l) as [|[x' ys'] gs] eqn:Hg; [by repeat constructor|].
  destruct (groupby_head _ _ _ _ Hg) as (y' & l' & ->).
  apply Forall_cons in Hall as [Hle _]. cbn in Hle, IH.
  destruct (decide (x0 = x')) as [->|Hne]; [done|].
  assert (Hlt : list_lt x0 x' = true).
  { destruct (list_lt x0 x') eqn:Hlt; [done|].
    by destruct Hne; apply list_lt_connex. }
  cbn. constructor; [done|].
  apply StronglySorted_inv in IH as [_ Hrest].
  constructor; [done|]. eapply Forall_impl; [exact Hrest|].
  intros b Hb. by eapply list_lt_trans.
Qed.

Lemma strictly_sorted_NoDup (l : list (list Qc)) :
  StronglySorted (λ a b, list_lt a b = true) l → NoDup l.
Proof.
  induction 1 as [|a l _ IH Hall]; constructor; [|done].
  intros Hin. eapply Forall_forall in Hall; [|exact Hin].
  by rewrite list_lt_irrefl in Hall.
Qed.

(** *** Expansion *)

Lemma expand_from_members symmetries x y similar x' y' :
  expand_from symmetries x y = inr similar →
  (x', y') ∈ similar →
  y' = y ∧ ∃ p, p ∈ symmetries ∧ index_row x p = inr x'.
Proof.
  revert similar. induction symmetries as [|p ps IH]; intros similar; cbn.
  { intros [= <-]. by intros ?%elem_of_nil. }
  destruct (index_row x p) as [e|new_x] eqn:Hrow; [done|]. cbn.
  destruct (any_differs new_x x) as [e|differs]; [done|]. cbn.
  destruct (expand_from ps x y) as [e|tail]; [done|]. cbn.
  intros [= <-] Hin.
  assert (Htail : (x', y') ∈ tail →
                  y' = y ∧ ∃ p0, p0 ∈ p :: ps ∧ index_row x p0 = inr x').
  { intros Ht. destruct (IH tail eq_refl Ht) as (-> & p0 & ? & ?).
    split; [done|]. exists p0. split; [by right|done]. }
  destruct differs; [|by apply Htail].
  apply elem_of_cons in Hin as [[= -> ->]|Hin]; [|by apply Htail].
  split; [done|]. exists p. split; [by left|done].
Qed.

Lemma expand_members symmetries x y similar :
  expand symmetries x y = inr similar →
  (x, y) ∈ similar
  ∧ ∀ x' y', (x', y') ∈ similar →
      y' = y ∧ (x' = x ∨ ∃ p, p ∈ symmetries ∧ index_row x p = inr x').
Proof.
  unfold expand.
  destruct (expand_from symmetries x y) as [e|tail] eqn:Htail; [done|].
  cbn. intros [= <-]. split; [by left|].
  intros x' y' [[= -> ->]|Hin]%elem_of_cons; [by split; [|left]|].
  destruct (expand_from_members _ _ _ _ _ _ Htail Hin) as (-> & Hp).
  split; [done|by right].
Qed.

(** What a successful run of [extend_using_symmetries] is made of. *)
Lemma extend_inr samples amplitudes symmetries xs ys :
  extend_using_symmetries samples amplitudes symmetries = inr (xs, ys) →
  ∃ similar,
    Forall2 (λ t sim, expand symmetries t.1 t.2 = inr sim)
      (zip samples amplitudes) similar
    ∧ xs = fst <$> groupby (py_sorted (concat similar))
    ∧ ys = (λ group, mean group.2) <$> groupby (py_sorted (concat similar)).
Proof.
  unfold extend_using_symmetries.
  destruct (mapM _ (zip samples amplitudes)) as [e|similar] eqn:Hsim;
    [done|].
  cbn. destruct (rectangular _); [|done]. intros [= <- <-].
  exists similar. split; [by apply mapM_inr|done].
Qed.

Lemma elem_of_similar (similar : list (list (list Qc * Qc))) t :
  t ∈ concat similar ↔ ∃ sim, sim ∈ similar ∧ t ∈ sim.
Proof.
  rewrite list_elem_of_In, in_concat. split.
  - intros (sim & ? & ?). exists sim. by rewrite !list_elem_of_In.
  - intros (sim & ? & ?). exists sim. by rewrite <- !list_elem_of_In.
Qed.



Example extend_swaps :
  extend_using_symmetries sym_samples sym_amplitudes sym_swaps
  = inr ([[q (-1) 1; q 1 1; q 1 1]; [q 1 1; q (-1) 1; q 1 1];
          [q 1 1; q 1 1; q (-1) 1]],
         [q 2 1; q 2 1; q 5 1]).
Proof.
  vm_compute. apply (f_equal inr). apply f_equal2; qc_entries.
Qed.



Lemma any_differs_same (x : list Qc) : any_differs x x = inr false.
Proof.
  unfold any_differs. rewrite decide_True by done.
  unfold mret, result_ret. f_equal. apply bool_decide_eq_false.
  rewrite Exists_exists. intros ([u v] & Hin & Hne).
  apply list_elem_of_lookup in Hin as (i & Hi).
  rewrite lookup_zip_with in Hi.
  destruct (x !! i) as [w|]; cbn in Hi; [|done]. by simplify_eq.
Qed.

Lemma expand_from_fixed symmetries x y :
  (∀ p, p ∈ symmetries → index_row x p = inr x) →
  expand_from symmetries x y = inr [].
Proof.
  induction symmetries as [|p ps IH]; intros Hfix; [done|].
  cbn. rewrite (Hfix p) by by left. cbn. rewrite any_differs_same. cbn.
  rewrite IH; [done|]. intros p0 Hp0. apply Hfix. by right.
Qed.

Lemma mapM_ext_in {A C} (f g : A → result C) (l : list A) :
  (∀ a, a ∈ l → f a = g a) → mapM f l = mapM g l.
Proof.
  induction l as [|a l IH]; intros Hfg; [done|].
  cbn. rewrite (Hfg a) by by left.
  rewrite IH; [done|]. intros a' Ha'. apply Hfg. by right.
Qed.



(** *** Means *)

Lemma Qc_of_nat_succ (k : nat) :
  Qc_of_Z (Z.of_nat (S k)) = (1 + Qc_of_Z (Z.of_nat k))%Qc.
Proof.
  rewrite Nat2Z.inj_succ, <- Z.add_1_l, Z2Qc_inj_add. by rewrite Z2Qc_inj_1.
Qed.

Lemma Qc_of_nat_pos (k : nat) : (0 < Qc_of_Z (Z.of_nat (S k)))%Qc.
Proof.
  pose proof (proj1 (Z2Qc_inj_lt 0 (Z.of_nat (S k))) ltac:(lia)) as H.
  by rewrite Z2Qc_inj_0 in H.
Qed.

Lemma sum_bounds (ys : list Qc) (lo hi : Qc) :
  Forall (λ y, lo ≤ y ≤ hi)%Qc ys →
  (Qc_of_Z (Z.of_nat (length ys)) * lo ≤ foldr Qcplus 0 ys
   ∧ foldr Qcplus 0 ys ≤ Qc_of_Z (Z.of_nat (length ys)) * hi)%Qc.
Proof.
  induction 1 as [|y ys [Hlo Hhi] _ [IHlo IHhi]].
  { cbn [length foldr]. change (Z.of_nat 0) with 0.
    rewrite Z2Qc_inj_0, !Qcmult_0_l. split; apply Qcle_refl. }
  cbn [length foldr]. rewrite Qc_of_nat_succ. split.
  - replace ((1 + Qc_of_Z (Z.of_nat (length ys))) * lo)%Qc
      with (lo + Qc_of_Z (Z.of_nat (length ys)) * lo)%Qc by ring.
    by apply Qcplus_le_compat.
  - replace ((1 + Qc_of_Z (Z.of_nat (length ys))) * hi)%Qc
      with (hi + Qc_of_Z (Z.of_nat (length ys)) * hi)%Qc by ring.
    by apply Qcplus_le_compat.
Qed.

Lemma mean_bounds (ys : list Qc) (lo hi : Qc) :
  ys ≠ [] →
  Forall (λ y, lo ≤ y ≤ hi)%Qc ys →
  (lo ≤ mean ys ≤ hi)%Qc.
Proof.
  intros Hne Hall. destruct (sum_bounds ys lo hi Hall) as [Hlo Hhi].
  destruct ys as [|y ys]; [done|]. unfold mean.
  set (n := Qc_of_Z (Z.of_nat (length (y :: ys)))) in *.
  set (total := foldr Qcplus 0%Qc (y :: ys)) in *.
  assert (Hn : (0 < n)%Qc) by apply Qc_of_nat_pos.
  assert (Hn0 : n ≠ 0%Qc) by (intros H0; rewrite H0 in Hn;
                               by apply Qclt_irrefl in Hn).
  assert (Hback : (total / n * n)%Qc = total) by (by field).
  split; apply (Qcmult_lt_0_le_reg_r _ _ n Hn); rewrite Hback.
  - by rewrite Qcmult_comm.
  - by rewrite (Qcmult_comm hi).
Qed.



(** *** When nothing is raised *)

Lemma py_index_in_range (x : list Qc) (i : Z) :
  - Z.of_nat (length x) ≤ i < Z.of_nat (length x) →
  ∃ v, py_index x i = inr v.
Proof.
  intros Hi. unfold py_index. cbv zeta.
  set (j := if decide (i < 0) then i + Z.of_nat (length x) else i).
  assert (Hj : 0 ≤ j < Z.of_nat (length x))
    by (unfold j; destruct (decide (i < 0)); lia).
  rewrite decide_True by done.
  destruct (lookup_lt_is_Some_2 x (Z.to_nat j)) as [v ->]; [lia|].
  by exists v.
Qed.

Lemma mapM_total {A C} (f : A → result C) (l : list A) :
  Forall (λ a, ∃ c, f a = inr c) l → ∃ k, mapM f l = inr k.
Proof.
  induction 1 as [|a l [c Hc] _ [k Hk]]; [by exists []|].
  exists (c :: k). cbn. rewrite Hc. cbn. by rewrite Hk.
Qed.

Lemma index_row_in_range (x : list Qc) (p : list Z) :
  Forall (λ i, - Z.of_nat (length x) ≤ i < Z.of_nat (length x)) p →
  ∃ new_x, index_row x p = inr new_x ∧ length new_x = length p.
Proof.
  intros Hp. destruct (mapM_total (py_index x) p) as [new_x Hrow].
  { eapply Forall_impl; [exact Hp|]. intros i. apply py_index_in_range. }
  exists new_x. split; [done|].
  apply mapM_inr in Hrow. symmetry. by eapply Forall2_length.
Qed.

Lemma any_differs_same_length (a b : list Qc) :
  length a = length b → ∃ differs, any_differs a b = inr differs.
Proof. intros Hlen. unfold any_differs. rewrite decide_True by done. eauto. Qed.

Lemma expand_from_total (n : nat) symmetries x y :
  length x = n →
  Forall (λ p, length p = n
               ∧ Forall (λ i, - Z.of_nat n ≤ i < Z.of_nat n) p) symmetries →
  ∃ similar, expand_from symmetries x y = inr similar
             ∧ Forall (λ t, length t.1 = n) similar.
Proof.
  intros Hx. induction 1 as [|p ps [Hlen Hp] _ (tail & Htail & Hall)].
  { by exists []. }
  destruct (index_row_in_range x p) as (new_x & Hrow & Hnew).
  { by rewrite Hx. }
  destruct (any_differs_same_length new_x x) as [differs Hd]; [congruence|].
  cbn. rewrite Hrow. cbn. rewrite Hd. cbn. rewrite Htail. cbn.
  eexists. split; [reflexivity|].
  destruct differs; [|done]. constructor; [cbn; congruence|done].
Qed.

Lemma rectangular_same_length (n : nat) (xs : Tensor2) :
  Forall (λ x, length x = n) xs → rectangular xs = true.
Proof.
  destruct 1 as [|x xs Hx Hall]; [done|]. cbn.
  apply forallb_forall. intros x' Hin%list_elem_of_In.
  eapply Forall_forall in Hall; [|exact Hin].
  apply Nat.eqb_eq. congruence.
Qed.



(** *** The symmetries of the 18-site Kagome cluster *)

Lemma py_index_nonneg (x : list Qc) (k : Z) (v : Qc) :
  0 ≤ k → x !! Z.to_nat k = Some v → py_index x k = inr v.
Proof.
  intros Hk Hv. unfold py_index. cbv zeta.
  rewrite (decide_False (P := k < 0)) by lia.
  apply lookup_lt_Some in Hv as Hlt.
  rewrite decide_True by lia. by rewrite Hv.
Qed.

(** Indexing by [p] and then by [r] is indexing by their composition. *)
Lemma index_row_compose (x : list Qc) (p r : list Z) :
  length p = length x →
  Forall (λ i, 0 ≤ i < Z.of_nat (length x)) p →
  Forall (λ i, 0 ≤ i < Z.of_nat (length x)) r →
  (index_row x p ≫= λ x1, index_row x1 r)
  = index_row x (compose_indices p r).
Proof.
  intros Hlen Hp Hr.
  destruct (index_row_in_range x p) as (x1 & Hrow & Hlen1).
  { eapply Forall_impl; [exact Hp|]. intros i ?; cbn in *. lia. }
  rewrite Hrow. cbn.
  apply mapM_inr in Hrow. unfold index_row, compose_indices.
  induction Hr as [|k r Hk _ IH]; [done|].
  cbn [fmap list_fmap mapM].
  destruct (lookup_lt_is_Some_2 p (Z.to_nat k)) as [i Hi]; [lia|].
  destruct (Forall2_lookup_l _ _ _ _ _ Hrow Hi) as (v & Hv & Hxi).
  rewrite Hi. change (default 0 (Some i)) with i.
  rewrite (py_index_nonneg x1 k v) by (done || lia).
  rewrite Hxi. cbn. by rewrite IH.
Qed.

(** X21. [_KAGOME_18_SYMMETRIES] is a group of index permutations: 48
    pairwise distinct lists, the identity first, each a permutation of
    [0 .. 17], and indexing by one entry and then by another is indexing by
    a third entry of the table. *)
Theorem kagome_symmetries_group :
  length _KAGOME_18_SYMMETRIES = 48%nat
  ∧ NoDup _KAGOME_18_SYMMETRIES
  ∧ head _KAGOME_18_SYMMETRIES = Some (Z.of_nat <$> seq 0 18)
  ∧ Forall (λ p, is_permutation 18 p = true
                 ∧ length p = 18%nat ∧ Forall (λ i, 0 ≤ i < 18) p)
      _KAGOME_18_SYMMETRIES
  ∧ ∀ p r, p ∈ _KAGOME_18_SYMMETRIES → r ∈ _KAGOME_18_SYMMETRIES →
      compose_indices p r ∈ _KAGOME_18_SYMMETRIES
      ∧ ∀ x : list Qc, length x = 18%nat →
          (index_row x p ≫= λ x1, index_row x1 r)
          = index_row x (compose_indices p r).
Proof.
  assert (Hshape : Forall (λ p, is_permutation 18 p = true
                                ∧ length p = 18%nat
                                ∧ Forall (λ i, 0 ≤ i < 18) p)
                     _KAGOME_18_SYMMETRIES).
  { apply (bool_decide_unpack _). vm_compute. exact I. }
  assert (Hclosed : Forall (λ p, Forall (λ r,
                      compose_indices p r ∈ _KAGOME_18_SYMMETRIES)
                      _KAGOME_18_SYMMETRIES) _KAGOME_18_SYMMETRIES).
  { apply (bool_decide_unpack _). vm_compute. exact I. }
  split; [reflexivity|].
  split; [apply (bool_decide_unpack _); vm_compute; exact I|].
  split; [reflexivity|]. split; [exact Hshape|].
  intros p r Hp Hr. split.
  - eapply Forall_forall in Hclosed; [|exact Hp].
    by eapply Forall_forall in Hclosed; [|exact Hr].
  - intros x Hx.
    pose proof (proj1 (Forall_forall _ _) Hshape p Hp) as (_ & Hlp & Hip).
    pose proof (proj1 (Forall_forall _ _) Hshape r Hr) as (_ & _ & Hir).
    apply index_row_compose; rewrite ?Hx; done.
Qed.
